(** * MotionTracker: the frame-to-frame correspondence engine

    A shallow embedding of [src/MotionTracker.cpp].  The tracker object
    holds a debug flag and the registry [currMeshes]; [alignMeshes]
    reconciles the registry with the meshes detected in the current frame
    through a square cost matrix handed to the Hungarian solver.

    Conventions of the embedding.
    - C++ [float] and [double] values are IEEE-754 binary32 and binary64
      values, written with [spec_float] and the operations of
      [Floats.SpecFloat] at the two precisions.
    - C++ [int] values are integers of [Z].  Sizes are assumed to fit an
      [int]: a registry of 2^31 meshes cannot be built, since the cost
      matrix alone would have 2^62 cells.
    - [std::vector] is [list]; [v[i]] on an index outside the vector is
      undefined behaviour and makes the embedded function return [None].
    - [cout] is the text returned next to the new tracker state.
    - The collaborators whose code is not in [src/] ([MeshObject],
      [_dist], [Hungarian], [TrackUtils], the OpenCV calls) are Section
      variables; module [Sample] gives one concrete choice of them, on
      which the engine can be run. *)

From Stdlib Require Import ZArith List Bool Lia String QArith Lqa.
From Stdlib Require Import Floats.SpecFloat DecimalString.
From stdpp Require Import base list option list_numbers.

Open Scope Z_scope.

(** ** Floating-point values *)

Module F32.
Definition prec : Z := 24.
Definition emax : Z := 128.
(** [numeric_limits<float>::max()], (2^24 - 1) * 2^104. *)
Definition max : spec_float := S754_finite false (2 ^ 24 - 1) 104.
Definition zero : spec_float := S754_zero false.
Definition add := SFadd prec emax.
Definition div := SFdiv prec emax.
Definition leb := SFleb.
Definition ltb := SFltb.
Definition of_Z (z : Z) : spec_float := binary_normalize prec emax z 0 false.
End F32.

Module F64.
Definition prec : Z := 53.
Definition emax : Z := 1024.
Definition add := SFadd prec emax.
Definition sub := SFsub prec emax.
Definition mul := SFmul prec emax.
Definition div := SFdiv prec emax.
Definition sqrt := SFsqrt prec emax.
Definition of_Z (z : Z) : spec_float := binary_normalize prec emax z 0 false.
End F64.

(** The conversion [(float)d] of a [double]: rounding to binary32. *)
Definition float_of_double (d : spec_float) : spec_float :=
  match d with
  | S754_finite s m e => binary_round F32.prec F32.emax s m e
  | _ => d
  end.

(** A value is within the sentinel when it is a NaN, plus infinity, or
    compares below or equal to [numeric_limits<float>::max()]. *)
Definition withinMax (v : spec_float) : Prop :=
  v = S754_nan \/ v = S754_infinity false \/ SFleb v F32.max = true.

(** A finite value of magnitude below 2^k: a zero, or m * 2^e with
    m of d binary digits, so below 2^d, and d + e at most k. *)
Definition finiteBelow (k : Z) (d : spec_float) : bool :=
  match d with
  | S754_zero _ => true
  | S754_finite _ m e => Zpos (digits2_pos m) + e <=? k
  | _ => false
  end.

(** 2^127 as a [double], 2^52 * 2^75. *)
Definition double_2p127 : spec_float := S754_finite false (2 ^ 52) 75.

(** A value is below zero when it compares below zero: a negative
    finite value or minus infinity. *)
Definition belowZero (v : spec_float) : bool := SFltb v (S754_zero false).

(** The implicit conversion of a [float] to [double], which is exact. *)
Definition double_of_float (f : spec_float) : spec_float :=
  match f with
  | S754_finite s m e => binary_round F64.prec F64.emax s m e
  | _ => f
  end.

(** [cv::Point2f]. *)
Record Point2f := mkPoint2f { px : spec_float; py : spec_float }.

(** ** The cost matrix, a [cv::Mat] of type [CV_32F] *)

Abbreviation Mat := (list (list spec_float)).

(** [Mat(rows, cols, CV_32F, Scalar(v))]. *)
Definition Mat_fill (rows cols : Z) (v : spec_float) : Mat :=
  replicate (Z.to_nat rows) (replicate (Z.to_nat cols) v).

(** [m.at<float>(r, c) = v]. *)
Definition Mat_put (m : Mat) (r c : Z) (v : spec_float) : Mat :=
  alter (fun row => <[Z.to_nat c := v]> row) (Z.to_nat r) m.

(** [m.at<float>(r, c)]. *)
Definition Mat_at (m : Mat) (r c : Z) : option spec_float :=
  if (r <? 0) || (c <? 0) then None
  else m !! Z.to_nat r ≫= fun row => row !! Z.to_nat c.

(** The shape of a matrix: [N] rows of [N] cells. *)
Definition square (N : Z) (m : Mat) : Prop :=
  Z.of_nat (length m) = N /\ Forall (fun row => Z.of_nat (length row) = N) m.

(** [v[i]] of a vector, with an [int] index. *)
Definition vec_at {A} (v : list A) (i : Z) : option A :=
  if i <? 0 then None else v !! Z.to_nat i.

(** How an integer is written to [cout]. *)
Definition show (z : Z) : string := NilZero.string_of_int (Z.to_int z).

Definition endl : string := String (Ascii.ascii_of_nat 10) EmptyString.

(** ** The branch taken for one couple of the assignment *)

Inductive Verdict :=
| Ignored                  (* padding row and padding column *)
| FreshNew (i1 : Z)        (* [new] with no matching *)
| AbsentOld (i0 : Z)       (* [old] with no matching *)
| Updated (i0 i1 : Z).     (* match between [old] and [new] *)

Definition classify (N0 N1 : Z) (couple : Z * Z) : Verdict :=
  let i0 := couple.1 in
  let i1 := couple.2 in
  if (i0 >=? N0) && (i1 >=? N1) then Ignored
  else if i0 >=? N0 then FreshNew i1
  else if i1 >=? N1 then AbsentOld i0
  else Updated i0 i1.

(** The events a run of the coupling loop consists of. *)
Definition isUpdateOf (i : Z) (v : Verdict) : bool :=
  match v with Updated i0 _ => i0 =? i | _ => false end.
Definition isAbsenceOf (i : Z) (v : Verdict) : bool :=
  match v with AbsentOld i0 => i0 =? i | _ => false end.
Definition isUpdateBy (j : Z) (v : Verdict) : bool :=
  match v with Updated _ i1 => i1 =? j | _ => false end.
Definition isQueuingOf (j : Z) (v : Verdict) : bool :=
  match v with FreshNew i1 => i1 =? j | _ => false end.

(** The four kinds of verdict. *)
Definition isIgnored (v : Verdict) : bool :=
  match v with Ignored => true | _ => false end.
Definition isFresh (v : Verdict) : bool :=
  match v with FreshNew _ => true | _ => false end.
Definition isAbsent (v : Verdict) : bool :=
  match v with AbsentOld _ => true | _ => false end.
Definition isUpdated (v : Verdict) : bool :=
  match v with Updated _ _ => true | _ => false end.

(** The new meshes the coupling loop queues, in queue order. *)
Definition pendingOf (N0 N1 : Z) (match_ : list (Z * Z)) : list Z :=
  omap (fun c => match classify N0 N1 c with
                 | FreshNew i1 => Some i1
                 | _ => None
                 end) match_.

(** ** Assignments *)

(** How many elements of a list pass a test. *)
Fixpoint tally {A} (p : A -> bool) (l : list A) : nat :=
  match l with
  | [] => O
  | x :: l' => ((if p x then 1 else 0) + tally p l')%nat
  end.

(** How often an index occurs in a list of indexes. *)
Definition occurrences (j : Z) (l : list Z) : nat := tally (fun n => n =? j) l.

Definition inSquare (N : Z) (c : Z * Z) : bool :=
  (0 <=? c.1) && (c.1 <? N) && (0 <=? c.2) && (c.2 <? N).

(** A perfect matching over the N x N matrix: couples of the square in
    which every row and every column occurs exactly once. *)
Definition perfect_matching (N : Z) (match_ : list (Z * Z)) : bool :=
  forallb (inSquare N) match_ &&
  forallb (fun k => Nat.eqb (tally (fun c => c.1 =? k) match_) 1 &&
                    Nat.eqb (tally (fun c => c.2 =? k) match_) 1)
          (seqZ 0 N).

(** No index of the assignment is negative: with such an assignment
    [alignMeshes] stays inside its vectors. *)
Definition nonnegative (match_ : list (Z * Z)) : bool :=
  forallb (fun c => (0 <=? c.1) && (0 <=? c.2)) match_.

(** The diagonal pairing (0,0), ..., (N-1,N-1). *)
Definition diagonal (N : Z) : list (Z * Z) := map (fun k => (k, k)) (seqZ 0 N).

(** The exact value of a power of two and of a cost.  An infinite cost
    weighs 2^128, above every finite [float]; a NaN weighs nothing. *)
Definition pow2 (e : Z) : Q :=
  match e with
  | Z0 => 1%Q
  | Zpos p => inject_Z (Zpos (2 ^ p))
  | Zneg p => (1 # (2 ^ p))%Q
  end.

Definition weight (v : spec_float) : Q :=
  match v with
  | S754_zero _ => 0%Q
  | S754_nan => 0%Q
  | S754_infinity s => if s then Qopp (pow2 128) else pow2 128
  | S754_finite s m e =>
      if s then Qopp (Qmult (inject_Z (Zpos m)) (pow2 e))
      else Qmult (inject_Z (Zpos m)) (pow2 e)
  end.

(** The total cost an assignment has in a matrix. *)
Definition totalCost (m : Mat) (match_ : list (Z * Z)) : Q :=
  fold_right (fun c acc => Qplus (from_option weight 0%Q (Mat_at m c.1 c.2)) acc)
             0%Q match_.

(** Every cell of the diagonal is zero, every other cell of the square
    is above zero. *)
Definition zeroDiagonalOnly (N : Z) (m : Mat) : bool :=
  forallb (fun r =>
    forallb (fun c =>
      match Mat_at m r c with
      | Some v => if r =? c then SFeqb v F32.zero else SFltb F32.zero v
      | None => false
      end) (seqZ 0 N)) (seqZ 0 N).

(** ** Meshes and the tracker object *)

(** Modelled from the spec: the declaration of [MeshObject] is not in
    [src/]; the spec gives it a non-negative integer counter
    [lengthOfAbsence], which [alignMeshes] increments as a public field.
    The counter is an integer without a bound here, its C++ type being
    part of the missing declaration.  [Geometry] is what the object
    holds besides: points, edges, movement history.  A copy of a
    [MeshObject] equals the object copied. *)
Record MeshObject (Geometry : Type) :=
  mkMesh { geometry : Geometry; lengthOfAbsence : Z }.

Arguments mkMesh {Geometry}.
Arguments geometry {Geometry}.
Arguments lengthOfAbsence {Geometry}.

(** [m.lengthOfAbsence++]. *)
Definition absent {Geometry} (m : MeshObject Geometry) : MeshObject Geometry :=
  {| geometry := geometry m; lengthOfAbsence := lengthOfAbsence m + 1 |}.

Record MotionTracker (Geometry : Type) :=
  mkTracker { debug : bool; currMeshes : list (MeshObject Geometry) }.

Arguments mkTracker {Geometry}.
Arguments debug {Geometry}.
Arguments currMeshes {Geometry}.

(** [MotionTracker::MotionTracker] (lines 3-6): the flag is stored, the
    registry starts empty. *)
Definition MotionTracker_new {Geometry} (flag : bool) : MotionTracker Geometry :=
  {| debug := flag; currMeshes := [] |}.

(** ** A concrete choice of the collaborators *)

Module Sample.

(** Modelled from the spec: a mesh is its ordered sequence of 2D
    points. *)
Definition Points := list Point2f.

(** Modelled from the spec: the centroid is the mean of the points. *)
Definition centroid (m : MeshObject Points) : Point2f :=
  let n := F32.of_Z (Z.of_nat (length (geometry m))) in
  {| px := F32.div (fold_left F32.add (map px (geometry m)) F32.zero) n;
     py := F32.div (fold_left F32.add (map py (geometry m)) F32.zero) n |}.

(** Modelled from the spec: [update] replaces the geometry and resets
    the absence counter. *)
Definition update (old new : MeshObject Points) : MeshObject Points :=
  {| geometry := geometry new; lengthOfAbsence := 0 |}.

(** Modelled from the spec: the Euclidean distance between two
    centroids, computed in [double]. *)
Definition euclid (a b : Point2f) : spec_float :=
  let dx := F64.sub (double_of_float (px a)) (double_of_float (px b)) in
  let dy := F64.sub (double_of_float (py a)) (double_of_float (py b)) in
  F64.sqrt (F64.add (F64.mul dx dx) (F64.mul dy dy)).

(** Modelled from the spec: the Assignment Solver returns a perfect
    matching of least total cost and is deterministic.  These two
    search all perfect matchings; among those of least cost the first
    keeps the earliest found and the second the latest. *)
Definition matchings (N : Z) : list (list (Z * Z)) :=
  map (zip (seqZ 0 N)) (permutations (seqZ 0 N)).

Definition solveFirst (m : Mat) : list (Z * Z) :=
  let cands := matchings (Z.of_nat (length m)) in
  fold_left
    (fun best c => if Qle_bool (totalCost m best) (totalCost m c) then best else c)
    (tail cands) (default [] (head cands)).

Definition solveLast (m : Mat) : list (Z * Z) :=
  let cands := matchings (Z.of_nat (length m)) in
  fold_left
    (fun best c => if Qle_bool (totalCost m c) (totalCost m best) then c else best)
    (tail cands) (default [] (head cands)).

(** A solver outside its contract, which hands back a negative row. *)
Definition solveNegative (m : Mat) : list (Z * Z) := [(-1, 0)].

Definition pt (x y : Z) : Point2f := {| px := F32.of_Z x; py := F32.of_Z y |}.

(** A mesh of the given points that was never absent. *)
Definition mesh (ps : list Point2f) : MeshObject Points :=
  {| geometry := ps; lengthOfAbsence := 0 |}.

(** Meshes to run the engine on: [meshA] and [meshB] share the
    centroid (1, 1), [meshC] lies at (10, 10), [late] at (5, 5) comes
    with an absence counter of 3; [east] and [west] have one point
    each, at the largest [float] on either side of [origin]. *)
Definition meshA : MeshObject Points := mesh [pt 0 0; pt 2 2].
Definition meshB : MeshObject Points := mesh [pt 1 1].
Definition meshC : MeshObject Points := mesh [pt 10 10].
Definition late : MeshObject Points :=
  {| geometry := [pt 5 5]; lengthOfAbsence := 3 |}.
Definition origin : MeshObject Points := mesh [pt 0 0].
Definition east : MeshObject Points :=
  mesh [{| px := F32.max; py := F32.zero |}].
Definition west : MeshObject Points :=
  mesh [{| px := SFopp F32.max; py := F32.zero |}].

(** Modelled from the spec: a frame, reduced to what [trackMotion] takes
    from it: its height and the two sets of corners found in it. *)
Record Frame := mkFrame {
  height : Z;
  structural : list Point2f;
  salient : list Point2f
}.

(** Modelled from the spec: a mesh built from a point set. *)
Definition MeshObject_of (ps : list Point2f) : MeshObject Points := mesh ps.

(** Modelled from the spec: a split within its contract, every sub-mesh
    with all edges within [maxEdgeLength]: one sub-mesh for each point. *)
Definition split (m : MeshObject Points) (maxEdgeLength : spec_float)
    : list (MeshObject Points) :=
  map (fun p => mesh [p]) (geometry m).

(** Three frames: two corners, none, three corners. *)
Definition frame1 : Frame := mkFrame 480 [pt 0 0] [pt 10 10].
Definition frame2 : Frame := mkFrame 480 [] [].
Definition frame3 : Frame := mkFrame 480 [pt 1 0; pt 40 40] [pt 11 10].

End Sample.

(** ** The engine *)

Section Tracker.

(** *** Collaborators *)

Variable Geometry : Type.

Abbreviation Mesh := (MeshObject Geometry).
Abbreviation Tracker := (MotionTracker Geometry).

(** [m.centroid()]. *)
Variable centroid : Mesh -> Point2f.

(** [m.update(other)]: the state of [m] after the call.  The argument
    is not changed by the call. *)
Variable update : Mesh -> Mesh -> Mesh.

(** [_dist(c0, c1)]: the value the call returns, which line 112 casts
    to [float]. *)
Variable _dist : Point2f -> Point2f -> spec_float.

(** [Hungarian h(m, false); h.optimiseMinima()]. *)
Variable optimiseMinima : Mat -> list (Z * Z).

(** *** Cost matrix construction (lines 87-117) *)

(** The distance the engine stores for two centroids (line 112). *)
Definition stored (c0 c1 : Point2f) : spec_float := float_of_double (_dist c0 c1).

(** The inner loop: one row of distances, [i] counting the columns. *)
Definition fillRow (c0 : Point2f) (j : Z) (centroids : list Point2f) (m : Mat) : Mat :=
  (fold_left
     (fun '(m, i) c1 =>
        let d := stored c0 c1 in
        (Mat_put m j i d, i + 1))
     centroids (m, 0)).1.

(** The outer loop, [j] counting the rows. *)
Definition fillMatrix (centroids0 centroids : list Point2f) (m : Mat) : Mat :=
  (fold_left
     (fun '(m, j) c0 => (fillRow c0 j centroids m, j + 1))
     centroids0 (m, 0)).1.

Definition costMatrix (currMeshes newMeshes : list Mesh) : Mat :=
  let N0 := Z.of_nat (length currMeshes) in
  let N1 := Z.of_nat (length newMeshes) in
  let N := Z.max N0 N1 in
  let centroids0 := map centroid currMeshes in
  let centroids := map centroid newMeshes in
  fillMatrix centroids0 centroids (Mat_fill N N F32.max).

(** *** Coupling loop (lines 130-161) *)

Record Coupling := mkCoupling {
  meshes : list Mesh;             (* this->currMeshes *)
  nFreshNew : Z;
  nAbsentOld : Z;
  nUpdated : Z;
  pendingForAdd : list Z          (* queue, front first *)
}.

Definition couple (N0 N1 : Z) (newMeshes : list Mesh)
    (st : Coupling) (c : Z * Z) : option Coupling :=
  match classify N0 N1 c with
  | Ignored => Some st
  | FreshNew i1 =>
      Some {| meshes := meshes st;
              nFreshNew := nFreshNew st + 1;
              nAbsentOld := nAbsentOld st;
              nUpdated := nUpdated st;
              pendingForAdd := pendingForAdd st ++ [i1] |}
  | AbsentOld i0 =>
      old ← vec_at (meshes st) i0;
      Some {| meshes := <[Z.to_nat i0 := absent old]> (meshes st);
              nFreshNew := nFreshNew st;
              nAbsentOld := nAbsentOld st + 1;
              nUpdated := nUpdated st;
              pendingForAdd := pendingForAdd st |}
  | Updated i0 i1 =>
      old ← vec_at (meshes st) i0;
      new ← vec_at newMeshes i1;
      Some {| meshes := <[Z.to_nat i0 := update old new]> (meshes st);
              nFreshNew := nFreshNew st;
              nAbsentOld := nAbsentOld st;
              nUpdated := nUpdated st + 1;
              pendingForAdd := pendingForAdd st |}
  end.

(** [for (auto couple : match) ...]. *)
Fixpoint coupleAll (N0 N1 : Z) (newMeshes : list Mesh)
    (match_ : list (Z * Z)) (st : Coupling) : option Coupling :=
  match match_ with
  | [] => Some st
  | c :: rest =>
      st' ← couple N0 N1 newMeshes st c;
      coupleAll N0 N1 newMeshes rest st'
  end.

(** The state the coupling loop starts in. *)
Definition startCoupling (curr : list Mesh) : Coupling :=
  {| meshes := curr; nFreshNew := 0; nAbsentOld := 0; nUpdated := 0;
     pendingForAdd := [] |}.

(** [while (!pendingForAdd.empty()) ...] (lines 171-176). *)
Fixpoint addPending (newMeshes : list Mesh) (pending : list Z)
    (curr : list Mesh) : option (list Mesh) :=
  match pending with
  | [] => Some curr
  | n :: rest =>
      m ← vec_at newMeshes n;
      addPending newMeshes rest (curr ++ [m])
  end.

(** *** What is written to [cout] *)

Definition logAligning (n0 n1 : Z) : string :=
  ("...Aligning mesh: " ++ show n0 ++ " --> " ++ show n1 ++ endl)%string.

Definition logMatrix (N : Z) : string :=
  ("[M] " ++ show N ++ " x " ++ show N ++ endl)%string.

Definition logCounts (st : Coupling) : string :=
  ("... " ++ show (nUpdated st) ++ " mesh(es) updated" ++ endl ++
   "... " ++ show (nAbsentOld st) ++ " mesh(es) absent" ++ endl ++
   "... " ++ show (nFreshNew st) ++ " new mesh(es)" ++ endl)%string.

Definition when (b : bool) (s : string) : string := if b then s else EmptyString.

(** *** [MotionTracker::alignMeshes] (lines 72-181) *)

Definition alignMeshes (this : Tracker) (newMeshes : list Mesh)
    (maxDist : spec_float) : option (Tracker * string) :=
  let out0 :=
    when (debug this)
      (logAligning (Z.of_nat (length (currMeshes this)))
                   (Z.of_nat (length newMeshes))) in
  if (length (currMeshes this) =? 0)%nat then
    Some ({| debug := debug this;
             currMeshes := currMeshes this ++ newMeshes |}, out0)
  else
    let N0 := Z.of_nat (length (currMeshes this)) in
    let N1 := Z.of_nat (length newMeshes) in
    let N := Z.max N0 N1 in
    let m := costMatrix (currMeshes this) newMeshes in
    let out1 := when (debug this) (logMatrix N) in
    let match_ := optimiseMinima m in
    st ← coupleAll N0 N1 newMeshes match_ (startCoupling (currMeshes this));
    let out2 := when (debug this) (logCounts st) in
    curr ← addPending newMeshes (pendingForAdd st) (meshes st);
    Some ({| debug := debug this; currMeshes := curr |},
          (out0 ++ out1 ++ out2)%string).

(** [alignMeshes] called on [k] consecutive frames in which nothing was
    detected. *)
Fixpoint alignEmpty (k : nat) (this : Tracker) (maxDist : spec_float)
    : option Tracker :=
  match k with
  | O => Some this
  | S k' =>
      '(this', _) ← alignMeshes this [] maxDist;
      alignEmpty k' this' maxDist
  end.

(** *** [MotionTracker::trackMotion] (lines 18-70) *)

(** A frame, [cv::Mat]. *)
Variable Frame : Type.

(** [im.size[0]]. *)
Variable frameRows : Frame -> Z.

(** Lines 20-43: colour conversion, blur, channel split, normalisation
    and the two calls of [TrackUtils::detectFeaturePoints]. *)
Variable cornersS : Frame -> list Point2f.
Variable cornersV : Frame -> list Point2f.

(** [MeshObject mesh(points)] and [mesh.split(maxEdgeLength)]. *)
Variable MeshObject_of : list Point2f -> Mesh.
Variable split : Mesh -> spec_float -> list Mesh.

(** The [double] literal [0.833]. *)
Definition c0_833 : spec_float := F64.div (F64.of_Z 833) (F64.of_Z 1000).

(** Drawing on the canvas and [imshow] leave the tracker untouched and
    are left out. *)
Definition trackMotion (this : Tracker) (im : Frame) : option (Tracker * string) :=
  let points := cornersS im ++ cornersV im in
  let out0 :=
    when (debug this)
      ("... " ++ show (Z.of_nat (length points)) ++ " vertices captured" ++ endl) in
  let mesh := MeshObject_of points in
  let maxEdgeLength := F64.of_Z (frameRows im) in
  let maxDisplacement := F64.mul (F64.of_Z (frameRows im)) c0_833 in
  let meshes := split mesh maxEdgeLength in
  let out1 :=
    when (debug this)
      ("... " ++ show (Z.of_nat (length meshes)) ++ " meshes splitted" ++ endl) in
  '(this', out2) ← alignMeshes this meshes maxDisplacement;
  Some (this', (out0 ++ out1 ++ out2)%string).

(** The pipe returned by [track()], fed with the frames of a video. *)
Fixpoint run (this : Tracker) (frames : list Frame) : option (Tracker * string) :=
  match frames with
  | [] => Some (this, EmptyString)
  | im :: rest =>
      '(this', out) ← trackMotion this im;
      '(this'', out') ← run this' rest;
      Some (this'', (out ++ out')%string)
  end.

(** *** Vocabulary of the statements *)

(** The registry a call leaves, when the call returns. *)
Definition registryAfter (r : option (Tracker * string)) : option (list Mesh) :=
  (fun p => currMeshes p.1) <$> r.

(** A mesh whose absence counter was incremented [k] times. *)
Definition absentFor (k : nat) (m : Mesh) : Mesh :=
  {| geometry := geometry m; lengthOfAbsence := lengthOfAbsence m + Z.of_nat k |}.

(** The assignment the coupling loop of a call goes through: none in
    the bootstrap case. *)
Definition couples (this : Tracker) (newMeshes : list Mesh) : list (Z * Z) :=
  if (length (currMeshes this) =? 0)%nat then []
  else optimiseMinima (costMatrix (currMeshes this) newMeshes).

(** The branches taken by the coupling loop of a call, in order. *)
Definition verdicts (this : Tracker) (newMeshes : list Mesh) : list Verdict :=
  map (classify (Z.of_nat (length (currMeshes this)))
                (Z.of_nat (length newMeshes)))
      (couples this newMeshes).

(** The new meshes a call appends to the registry, in order: all of
    them in the bootstrap case, the queued ones otherwise. *)
Definition appended (this : Tracker) (newMeshes : list Mesh) : list Z :=
  if (length (currMeshes this) =? 0)%nat then seqZ 0 (Z.of_nat (length newMeshes))
  else pendingOf (Z.of_nat (length (currMeshes this)))
                 (Z.of_nat (length newMeshes))
                 (couples this newMeshes).

(** What one couple does to the mesh in slot [i]. *)
Definition slotEffect (N0 N1 : Z) (newMeshes : list Mesh) (i : Z)
    (m : Mesh) (c : Z * Z) : Mesh :=
  match classify N0 N1 c with
  | AbsentOld i0 => if i0 =? i then absent m else m
  | Updated i0 i1 =>
      if i0 =? i then from_option (update m) m (vec_at newMeshes i1) else m
  | _ => m
  end.

(** What a whole call does to the mesh in slot [i]. *)
Definition slotAfter (this : Tracker) (newMeshes : list Mesh) (i : Z)
    (m : Mesh) : Mesh :=
  fold_left (slotEffect (Z.of_nat (length (currMeshes this)))
                        (Z.of_nat (length newMeshes)) newMeshes i)
            (couples this newMeshes) m.

(** *** More vocabulary *)

(** No distance between a tracked and a new centroid is below zero. *)
Definition distancesNotBelowZero (curr new : list Mesh) : bool :=
  forallb (fun old =>
    forallb (fun fresh => negb (belowZero (_dist (centroid old) (centroid fresh))))
            new) curr.

(** The meshes [trackMotion] detects in a frame (lines 20-58). *)
Definition detected (im : Frame) : list Mesh :=
  split (MeshObject_of (cornersS im ++ cornersV im)) (F64.of_Z (frameRows im)).

(** The solver returns a perfect matching each time a run calls it. *)
Fixpoint perfectAlong (this : Tracker) (frames : list Frame) : bool :=
  match frames with
  | [] => true
  | im :: rest =>
      ((length (currMeshes this) =? 0)%nat
       || perfect_matching
            (Z.max (Z.of_nat (length (currMeshes this)))
                   (Z.of_nat (length (detected im))))
            (optimiseMinima (costMatrix (currMeshes this) (detected im))))
      && match trackMotion this im with
         | Some (this', _) => perfectAlong this' rest
         | None => false
         end
  end.

(** The largest number of meshes seen so far, starting from [n]. *)
Fixpoint peak (n : nat) (frames : list Frame) : nat :=
  match frames with
  | [] => n
  | im :: rest => peak (Nat.max n (length (detected im))) rest
  end.

(** ** Vectors and matrices *)

Lemma vec_at_Some {A} (v : list A) (i : Z) (x : A) :
  vec_at v i = Some x <-> 0 <= i /\ v !! Z.to_nat i = Some x.
Proof.
  unfold vec_at. destruct (Z.ltb_spec i 0); split.
  - discriminate.
  - intros [? _]. lia.
  - auto.
  - tauto.
Qed.

Lemma vec_at_of_nat {A} (v : list A) (n : nat) : vec_at v (Z.of_nat n) = v !! n.
Proof.
  unfold vec_at. destruct (Z.ltb_spec (Z.of_nat n) 0); [lia|].
  by rewrite Nat2Z.id.
Qed.

Lemma vec_at_in_range {A} (v : list A) (i : Z) :
  0 <= i < Z.of_nat (length v) -> is_Some (vec_at v i).
Proof.
  intros Hi. unfold vec_at. destruct (Z.ltb_spec i 0); [lia|].
  apply lookup_lt_is_Some. lia.
Qed.

Lemma vec_at_map {A B} (f : A -> B) (v : list A) (i : Z) :
  vec_at (map f v) i = f <$> vec_at v i.
Proof. unfold vec_at. destruct (i <? 0); [done|]. apply list_lookup_fmap. Qed.

Lemma Mat_at_of_nat (m : Mat) (r c : nat) :
  Mat_at m (Z.of_nat r) (Z.of_nat c) = m !! r ≫= fun row => row !! c.
Proof.
  unfold Mat_at.
  destruct (Z.ltb_spec (Z.of_nat r) 0); [lia|].
  destruct (Z.ltb_spec (Z.of_nat c) 0); [lia|].
  by rewrite !Nat2Z.id.
Qed.

Lemma Mat_at_negative (m : Mat) (r c : Z) : r < 0 \/ c < 0 -> Mat_at m r c = None.
Proof.
  intros H. unfold Mat_at.
  destruct (Z.ltb_spec r 0); [done|]. destruct (Z.ltb_spec c 0); [done|]. lia.
Qed.

(** Writing a cell changes that cell, when it exists, and no other. *)
Lemma Mat_at_put (m : Mat) (r c : Z) (v : spec_float) (r' c' : Z) :
  0 <= r -> 0 <= c ->
  Mat_at (Mat_put m r c v) r' c' =
    if decide (r' = r /\ c' = c) then (fun _ => v) <$> Mat_at m r c else Mat_at m r' c'.
Proof.
  intros Hr Hc.
  destruct (Z.lt_ge_cases r' 0) as [Hr'|Hr'].
  { rewrite !(Mat_at_negative _ r' c') by auto. case_decide; [lia|done]. }
  destruct (Z.lt_ge_cases c' 0) as [Hc'|Hc'].
  { rewrite !(Mat_at_negative _ r' c') by auto. case_decide; [lia|done]. }
  destruct (Z_of_nat_complete r' Hr') as [nr' ->].
  destruct (Z_of_nat_complete c' Hc') as [nc' ->].
  destruct (Z_of_nat_complete r Hr) as [nr ->].
  destruct (Z_of_nat_complete c Hc) as [nc ->].
  rewrite !Mat_at_of_nat. unfold Mat_put. rewrite !Nat2Z.id.
  destruct (decide (nr' = nr)) as [->|Er].
  - rewrite list_lookup_alter_eq.
    destruct (m !! nr) as [row|] eqn:Hrow; simpl.
    + destruct (decide (nc' = nc)) as [->|Ec].
      * case_decide; [|lia].
        destruct (row !! nc) eqn:Hcell; simpl.
        -- apply list_lookup_insert_eq. by eapply lookup_lt_Some.
        -- apply lookup_ge_None. rewrite length_insert. by apply lookup_ge_None.
      * rewrite list_lookup_insert_ne by done. case_decide; [lia|done].
    + by case_decide.
  - rewrite list_lookup_alter_ne by done. case_decide; [lia|done].
Qed.

Lemma Mat_at_fill (N : Z) (v : spec_float) (r c : Z) :
  Mat_at (Mat_fill N N v) r c =
    if decide (0 <= r < N /\ 0 <= c < N) then Some v else None.
Proof.
  destruct (Z.lt_ge_cases r 0) as [Hr|Hr].
  { rewrite Mat_at_negative by auto. case_decide; [lia|done]. }
  destruct (Z.lt_ge_cases c 0) as [Hc|Hc].
  { rewrite Mat_at_negative by auto. case_decide; [lia|done]. }
  destruct (Z_of_nat_complete r Hr) as [nr ->].
  destruct (Z_of_nat_complete c Hc) as [nc ->].
  rewrite Mat_at_of_nat. unfold Mat_fill.
  destruct (decide (Z.of_nat nr < N)) as [Hr'|Hr'].
  - rewrite lookup_replicate_2 by lia. simpl.
    destruct (decide (Z.of_nat nc < N)) as [Hc'|Hc'].
    + rewrite lookup_replicate_2 by lia. case_decide; [done|lia].
    + rewrite (proj1 (lookup_replicate_None _ _ _)) by lia. case_decide; [lia|done].
  - rewrite (proj1 (lookup_replicate_None _ _ _)) by lia. case_decide; [lia|done].
Qed.

Lemma square_fill (N : Z) (v : spec_float) : 0 <= N -> square N (Mat_fill N N v).
Proof.
  intros HN. unfold square, Mat_fill. rewrite length_replicate. split; [lia|].
  apply Forall_replicate. rewrite length_replicate. lia.
Qed.

Lemma square_put (N : Z) (m : Mat) (r c : Z) (v : spec_float) :
  square N m -> square N (Mat_put m r c v).
Proof.
  intros [Hlen Hrows]. unfold square, Mat_put. rewrite length_alter. split; [done|].
  apply Forall_alter; [done|]. intros row _ Hrow. by rewrite length_insert.
Qed.

Lemma vec_at_nil {A} (i : Z) : vec_at (@nil A) i = None.
Proof. unfold vec_at. by destruct (i <? 0). Qed.

Lemma vec_at_cons {A} (x : A) (v : list A) (i : Z) :
  vec_at (x :: v) i =
    if decide (i = 0) then Some x else if decide (0 < i) then vec_at v (i - 1) else None.
Proof.
  unfold vec_at. destruct (Z.ltb_spec i 0).
  - repeat case_decide; (done || lia).
  - case_decide as Hi; [by subst|]. case_decide; [|lia].
    destruct (Z.ltb_spec (i - 1) 0); [lia|].
    replace (Z.to_nat i) with (S (Z.to_nat (i - 1))) by lia. done.
Qed.

(** ** The cost matrix *)

Lemma fillRow_fold (N : Z) (c0 : Point2f) (j : Z) (cs : list Point2f) :
  forall (m : Mat) (i0 : Z), 0 <= j -> 0 <= i0 ->
  let res := fold_left
               (fun '(m, i) c1 =>
                  let d := stored c0 c1 in
                  (Mat_put m j i d, i + 1)) cs (m, i0) in
  (square N m -> square N res.1) /\
  forall r c,
    Mat_at res.1 r c =
      match (if decide (r = j) then vec_at cs (c - i0) else None) with
      | Some c1 => (fun _ => stored c0 c1) <$> Mat_at m r c
      | None => Mat_at m r c
      end.
Proof.
  induction cs as [|c1 cs IH]; intros m i0 Hj Hi0; simpl.
  - split; [done|]. intros r c. rewrite vec_at_nil. by case_decide.
  - destruct (IH (Mat_put m j i0 (stored c0 c1)) (i0 + 1) Hj)
      as [Hsq Hat]; [lia|].
    split; [intros Hm; by apply Hsq, square_put|].
    intros r c. rewrite Hat, vec_at_cons.
    rewrite !(Mat_at_put m j i0) by done.
    destruct (decide (r = j)) as [->|Hr].
    + destruct (decide (c - i0 = 0)) as [Hc|Hc].
      * replace c with i0 by lia.
        replace (i0 - (i0 + 1)) with (-1) by lia. simpl.
        case_decide; [done|lia].
      * destruct (decide (0 < c - i0)).
        -- replace (c - (i0 + 1)) with (c - i0 - 1) by lia.
           case_decide; [lia|]. done.
        -- rewrite (proj2 (eq_None_not_Some (vec_at cs (c - (i0 + 1))))).
           ++ case_decide; [lia|done].
           ++ intros [x Hx]. apply vec_at_Some in Hx. lia.
    + case_decide; [lia|done].
Qed.

Lemma fillRow_at (c0 : Point2f) (j : Z) (cs : list Point2f) (m : Mat) (r c : Z) :
  0 <= j ->
  Mat_at (fillRow c0 j cs m) r c =
    match (if decide (r = j) then vec_at cs c else None) with
    | Some c1 => (fun _ => stored c0 c1) <$> Mat_at m r c
    | None => Mat_at m r c
    end.
Proof.
  intros Hj. unfold fillRow.
  destruct (fillRow_fold 0 c0 j cs m 0 Hj) as [_ Hat]; [lia|].
  rewrite Hat. by rewrite Z.sub_0_r.
Qed.

Lemma fillRow_square (N : Z) (c0 : Point2f) (j : Z) (cs : list Point2f) (m : Mat) :
  0 <= j -> square N m -> square N (fillRow c0 j cs m).
Proof.
  intros Hj. unfold fillRow.
  by destruct (fillRow_fold N c0 j cs m 0 Hj) as [Hsq _]; [lia|].
Qed.

Lemma fillMatrix_fold (N : Z) (cs0 cs : list Point2f) :
  forall (m : Mat) (j0 : Z), 0 <= j0 ->
  let res := fold_left
               (fun '(m, j) c0 => (fillRow c0 j cs m, j + 1)) cs0 (m, j0) in
  (square N m -> square N res.1) /\
  forall r c,
    Mat_at res.1 r c =
      match vec_at cs0 (r - j0), vec_at cs c with
      | Some c0, Some c1 => (fun _ => stored c0 c1) <$> Mat_at m r c
      | _, _ => Mat_at m r c
      end.
Proof.
  induction cs0 as [|c0 cs0 IH]; intros m j0 Hj0; simpl.
  - split; [done|]. intros r c. by rewrite vec_at_nil.
  - destruct (IH (fillRow c0 j0 cs m) (j0 + 1)) as [Hsq Hat]; [lia|].
    split; [intros Hm; by apply Hsq, fillRow_square|].
    intros r c. rewrite Hat, vec_at_cons, !fillRow_at by done.
    destruct (decide (r - j0 = 0)) as [Hr|Hr].
    + replace (r - (j0 + 1)) with (-1) by lia. simpl.
      case_decide; [|lia]. done.
    + case_decide; [lia|].
      destruct (decide (0 < r - j0)).
      * by replace (r - (j0 + 1)) with (r - j0 - 1) by lia.
      * rewrite (proj2 (eq_None_not_Some (vec_at cs0 (r - (j0 + 1))))); [done|].
        intros [x Hx]. apply vec_at_Some in Hx. lia.
Qed.

(** What the cost matrix of a call holds in every cell of the square. *)
Lemma costMatrix_at (curr new : list Mesh) (r c : Z) :
  Mat_at (costMatrix curr new) r c =
    let N := Z.max (Z.of_nat (length curr)) (Z.of_nat (length new)) in
    if decide (0 <= r < N /\ 0 <= c < N) then
      Some match vec_at curr r, vec_at new c with
           | Some old, Some fresh => stored (centroid old) (centroid fresh)
           | _, _ => F32.max
           end
    else None.
Proof.
  unfold costMatrix, fillMatrix.
  set (N := Z.max _ _).
  destruct (fillMatrix_fold N (map centroid curr) (map centroid new)
              (Mat_fill N N F32.max) 0) as [_ Hat]; [lia|].
  rewrite Hat, Z.sub_0_r, !vec_at_map, Mat_at_fill. simpl.
  destruct (vec_at curr r) as [old|] eqn:Hold; simpl;
    [destruct (vec_at new c) as [fresh|] eqn:Hnew; simpl|];
    by case_decide.
Qed.

Lemma costMatrix_square (curr new : list Mesh) :
  square (Z.max (Z.of_nat (length curr)) (Z.of_nat (length new)))
         (costMatrix curr new).
Proof.
  unfold costMatrix, fillMatrix.
  set (N := Z.max _ _).
  destruct (fillMatrix_fold N (map centroid curr) (map centroid new)
              (Mat_fill N N F32.max) 0) as [Hsq _]; [lia|].
  apply Hsq, square_fill. lia.
Qed.

(** Without new meshes the matrix is the sentinel everywhere and depends
    on the size of the registry alone. *)
Lemma costMatrix_no_new (curr : list Mesh) :
  costMatrix curr [] =
    Mat_fill (Z.of_nat (length curr)) (Z.of_nat (length curr)) F32.max.
Proof.
  unfold costMatrix, fillMatrix. simpl.
  rewrite Z.max_l by lia.
  generalize (Mat_fill (Z.of_nat (length curr)) (Z.of_nat (length curr)) F32.max).
  generalize 0. induction curr as [|x curr IH]; intros j m; simpl; [done|].
  unfold fillRow at 2. simpl. apply IH.
Qed.

(** ** The largest finite [float] *)

Lemma digits2_pos_bound (m : positive) : Zpos m < 2 ^ Zpos (digits2_pos m).
Proof.
  induction m as [m IH|m IH|]; simpl digits2_pos.
  - rewrite Pos2Z.inj_succ, Z.pow_succ_r by lia. lia.
  - rewrite Pos2Z.inj_succ, Z.pow_succ_r by lia. lia.
  - reflexivity.
Qed.

Lemma shr_1_bound (mrs : shr_record) (B : Z) :
  0 <= B -> shr_m mrs <= B -> shr_m (shr_1 mrs) <= B / 2.
Proof.
  intros HB Hm. destruct mrs as [m r s]. simpl in *.
  assert (0 <= B / 2) by (apply Z.div_pos; lia).
  destruct m as [|p|p]; simpl; try done.
  - destruct p as [p|p|]; simpl; try done.
    + apply Z.div_le_lower_bound; lia.
    + apply Z.div_le_lower_bound; lia.
  - destruct p as [p|p|]; simpl; lia.
Qed.

Lemma iter_shr_1_bound (p : positive) :
  forall (mrs : shr_record) (B : Z),
    0 <= B -> shr_m mrs <= B -> shr_m (SpecFloat.iter_pos shr_1 p mrs) <= B / 2 ^ Zpos p.
Proof.
  induction p as [p IH|p IH|]; intros mrs B HB Hm; simpl SpecFloat.iter_pos.
  - replace (Zpos p~1) with (1 + Zpos p + Zpos p) by lia.
    rewrite !Z.pow_add_r, <- !Z.div_div by lia.
    apply IH; [repeat apply Z.div_pos; lia|].
    apply IH; [apply Z.div_pos; lia|].
    rewrite Z.pow_1_r. by apply shr_1_bound.
  - replace (Zpos p~0) with (Zpos p + Zpos p) by lia.
    rewrite Z.pow_add_r, <- Z.div_div by lia.
    apply IH; [apply Z.div_pos; lia|]. by apply IH.
  - rewrite Z.pow_1_r. by apply shr_1_bound.
Qed.

(** After the final shift of a rounding to binary32, a mantissa at the
    top exponent has at most 24 bits. *)
Lemma shr_fexp_top (M e : Z) (mrs : shr_record) (e' : Z) (m : positive) :
  shr_fexp F32.prec F32.emax M e loc_Exact = (mrs, e') ->
  shr_m mrs = Zpos m -> e' = 104 -> Zpos m < 2 ^ 24.
Proof.
  unfold shr_fexp, shr, fexp, emin, F32.prec, F32.emax. simpl shr_record_of_loc.
  intros Hshr Hm He'.
  destruct M as [|M|M].
  - simpl Zdigits2 in Hshr.
    destruct (Z.max (0 + e - 24) (3 - 128 - 24) - e) eqn:Hn; inversion Hshr; subst.
    + discriminate.
    + pose proof (iter_shr_1_bound p {| shr_m := 0; shr_r := false; shr_s := false |} 0) as Hb.
      simpl in Hb. rewrite Z.div_0_l in Hb by lia. specialize (Hb ltac:(lia) ltac:(lia)). lia.
    + discriminate.
  - simpl Zdigits2 in Hshr. pose proof (digits2_pos_bound M) as HM.
    destruct (Z.max (Zpos (digits2_pos M) + e - 24) (3 - 128 - 24) - e) eqn:Hn;
      inversion Hshr; subst.
    + simpl in Hm. inversion Hm; subst.
      assert (Zpos (digits2_pos m) <= 24) by lia.
      eapply Z.lt_le_trans; [exact HM|]. apply Z.pow_le_mono_r; lia.
    + pose proof (iter_shr_1_bound p
                    {| shr_m := Zpos M; shr_r := false; shr_s := false |}
                    (2 ^ Zpos (digits2_pos M) - 1)) as Hb.
      simpl in Hb. specialize (Hb ltac:(lia) ltac:(lia)).
      assert (Zpos (digits2_pos M) = Zpos p + 24) as HD by lia.
      rewrite Hm in Hb. eapply Z.le_lt_trans; [exact Hb|].
      apply Z.div_lt_upper_bound; [lia|].
      rewrite <- Z.pow_add_r, <- HD by lia. lia.
    + simpl in Hm. inversion Hm; subst.
      assert (Zpos (digits2_pos m) <= 24) by lia.
      eapply Z.lt_le_trans; [exact HM|]. apply Z.pow_le_mono_r; lia.
  - simpl Zdigits2 in Hshr.
    destruct (Z.max (Zpos (digits2_pos M) + e - 24) (3 - 128 - 24) - e) eqn:Hn;
      inversion Hshr; subst.
    + discriminate.
    + pose proof (iter_shr_1_bound p
                    {| shr_m := Zneg M; shr_r := false; shr_s := false |} 0) as Hb.
      simpl in Hb. rewrite Z.div_0_l in Hb by lia. specialize (Hb ltac:(lia) ltac:(lia)). lia.
    + discriminate.
Qed.

Lemma finite_withinMax (s : bool) (m : positive) (e : Z) :
  e <= 104 -> (e = 104 -> Zpos m < 2 ^ 24) -> withinMax (S754_finite s m e).
Proof.
  intros He Hm. right; right. unfold SFleb, SFcompare, F32.max.
  destruct s; [done|].
  destruct (Z.compare_spec e 104) as [->|?|?]; [|done|lia].
  specialize (Hm eq_refl).
  rewrite Pos.compare_cont_spec. simpl.
  destruct (Pos.compare_spec m (2 ^ 24 - 1)) as [?|?|Hgt]; try done.
  exfalso. change (2 ^ 24 - 1)%positive with 16777215%positive in Hgt.
  change (2 ^ 24) with 16777216 in Hm. lia.
Qed.

Lemma binary_round_aux_withinMax (sx : bool) (mx ex : Z) (lx : location) :
  withinMax (binary_round_aux F32.prec F32.emax sx mx ex lx).
Proof.
  unfold binary_round_aux.
  destruct (shr_fexp F32.prec F32.emax mx ex lx) as [mrs' e'].
  destruct (shr_fexp F32.prec F32.emax _ e' loc_Exact) as [mrs'' e''] eqn:Hshr.
  destruct (shr_m mrs'') as [|m|m] eqn:Hm.
  - right; right. by destruct sx.
  - change (F32.emax - F32.prec) with 104.
    destruct (Z.leb_spec e'' 104).
    + apply finite_withinMax; [done|]. intros ->. by eapply shr_fexp_top.
    + destruct sx; [right; right; done | right; left; done].
  - by left.
Qed.

(** No [float] produced by the cast of line 112 is a finite value above
    the sentinel. *)
Lemma float_of_double_withinMax (d : spec_float) : withinMax (float_of_double d).
Proof.
  destruct d as [s|s| |s m e]; simpl.
  - right; right. by destruct s.
  - destruct s; [right; right; done | right; left; done].
  - by left.
  - unfold binary_round.
    destruct (shl_align m e _) as [mz ez].
    apply binary_round_aux_withinMax.
Qed.

(** ** Distances below half the range of [float] *)

Lemma digits2_pos_lower (m : positive) : 2 ^ (Zpos (digits2_pos m) - 1) <= Zpos m.
Proof.
  induction m as [m IH|m IH|]; simpl digits2_pos.
  - rewrite Pos2Z.inj_succ.
    replace (Z.succ (Zpos (digits2_pos m)) - 1)
      with (Z.succ (Zpos (digits2_pos m) - 1)) by lia.
    rewrite Z.pow_succ_r by lia. lia.
  - rewrite Pos2Z.inj_succ.
    replace (Z.succ (Zpos (digits2_pos m)) - 1)
      with (Z.succ (Zpos (digits2_pos m) - 1)) by lia.
    rewrite Z.pow_succ_r by lia. lia.
  - reflexivity.
Qed.

Lemma digits2_pos_shift (m d : positive) :
  digits2_pos (Pos.iter xO m d) = (digits2_pos m + d)%positive.
Proof.
  induction d as [|d IH] using Pos.peano_ind.
  - simpl. lia.
  - rewrite Pos.iter_succ. simpl. rewrite IH. lia.
Qed.

(** Aligning a mantissa keeps its magnitude and brings the exponent to
    the target or below. *)
Lemma shl_align_spec (m : positive) (e e' : Z) (mz : positive) (ez : Z) :
  shl_align m e e' = (mz, ez) ->
  ez <= e' /\ Zpos (digits2_pos mz) + ez = Zpos (digits2_pos m) + e.
Proof.
  unfold shl_align. destruct (e' - e) as [|d|d] eqn:Hd; intros [= <- <-].
  - lia.
  - lia.
  - rewrite digits2_pos_shift. lia.
Qed.

Lemma shr_1_nonneg (mrs : shr_record) : 0 <= shr_m mrs -> 0 <= shr_m (shr_1 mrs).
Proof.
  destruct mrs as [m r s]. simpl. destruct m as [|p|p]; [done| |lia].
  intros _. destruct p; simpl; lia.
Qed.

Lemma iter_shr_1_nonneg (p : positive) :
  forall mrs : shr_record,
    0 <= shr_m mrs -> 0 <= shr_m (SpecFloat.iter_pos shr_1 p mrs).
Proof.
  induction p as [p IH|p IH|]; intros mrs Hm; simpl SpecFloat.iter_pos.
  - by apply IH, IH, shr_1_nonneg.
  - by apply IH, IH.
  - by apply shr_1_nonneg.
Qed.

Lemma shr_m_of_loc (m : Z) (l : location) : shr_m (shr_record_of_loc m l) = m.
Proof. by destruct l as [|[]]. Qed.

Lemma round_nearest_even_bound (m : Z) (l : location) :
  m <= round_nearest_even m l <= m + 1.
Proof. destruct l as [|[]]; simpl; try destruct (Z.even m); lia. Qed.

(** The first shift of a rounding to binary32, on an aligned mantissa:
    the exponent is the one of the format and 24 bits are left. *)
Lemma shr_fexp_first (p : positive) (ex : Z) (lx : location)
    (mrs : shr_record) (e' : Z) :
  let D := Zpos (digits2_pos p) + ex in
  shr_fexp F32.prec F32.emax (Zpos p) ex lx = (mrs, e') ->
  ex <= Z.max (D - 24) (-149) ->
  e' = Z.max (D - 24) (-149) /\ 0 <= shr_m mrs < 2 ^ 24.
Proof.
  intros D. unfold shr_fexp, shr, fexp, emin, F32.prec, F32.emax.
  simpl Zdigits2. fold D. change (3 - 128 - 24) with (-149).
  pose proof (digits2_pos_bound p) as Hp.
  destruct (Z.max (D - 24) (-149) - ex) as [|q|q] eqn:Hn; intros [= <- <-] Hal.
  - rewrite shr_m_of_loc. split; [lia|]. split; [lia|].
    eapply Z.lt_le_trans; [exact Hp|]. apply Z.pow_le_mono_r; lia.
  - split; [lia|]. split.
    + apply iter_shr_1_nonneg. rewrite shr_m_of_loc. lia.
    + pose proof (iter_shr_1_bound q (shr_record_of_loc (Zpos p) lx)
                    (2 ^ Zpos (digits2_pos p) - 1)) as Hb.
      rewrite shr_m_of_loc in Hb. specialize (Hb ltac:(lia) ltac:(lia)).
      eapply Z.le_lt_trans; [exact Hb|].
      apply Z.div_lt_upper_bound; [lia|].
      rewrite <- Z.pow_add_r by lia.
      assert (2 ^ Zpos (digits2_pos p) <= 2 ^ (Zpos q + 24))
        by (apply Z.pow_le_mono_r; lia).
      lia.
  - lia.
Qed.

Lemma Zdigits2_small (M : Z) : 0 <= M <= 2 ^ 24 -> Zdigits2 M <= 25.
Proof.
  intros HM. destruct M as [|p|p]; simpl; [lia| |lia].
  pose proof (digits2_pos_lower p) as Hl.
  destruct (Z.le_gt_cases (Zpos (digits2_pos p)) 25) as [|Hgt]; [done|].
  assert (2 ^ 25 <= 2 ^ (Zpos (digits2_pos p) - 1))
    by (apply Z.pow_le_mono_r; lia).
  change (2 ^ 25) with 33554432 in *. change (2 ^ 24) with 16777216 in *. lia.
Qed.

(** The final shift: below the top exponent, or at it with the mantissa
    2^23 at most. *)
Lemma shr_fexp_second (M e' : Z) (mrs : shr_record) (e'' : Z) :
  shr_fexp F32.prec F32.emax M e' loc_Exact = (mrs, e'') ->
  0 <= M <= 2 ^ 24 -> e' <= 103 ->
  0 <= shr_m mrs /\ (e'' <= 103 \/ (e'' = 104 /\ shr_m mrs <= 2 ^ 23)).
Proof.
  unfold shr_fexp, shr, fexp, emin, F32.prec, F32.emax.
  change (3 - 128 - 24) with (-149). intros Hshr HM He'.
  pose proof (Zdigits2_small M HM) as Hd.
  destruct (Z.max (Zdigits2 M + e' - 24) (-149) - e') as [|q|q] eqn:Hn;
    injection Hshr as <- <-.
  - simpl. split; [lia|]. left. lia.
  - split; [apply iter_shr_1_nonneg; simpl; lia|].
    destruct (Z.le_gt_cases (e' + Zpos q) 103) as [|Hgt]; [by left|].
    right. split; [lia|].
    pose proof (iter_shr_1_bound q
                  {| shr_m := M; shr_r := false; shr_s := false |} (2 ^ 24)) as Hb.
    simpl in Hb. specialize (Hb ltac:(lia) ltac:(lia)).
    eapply Z.le_trans; [exact Hb|].
    apply Z.div_le_upper_bound; [lia|].
    assert (2 ^ 1 <= 2 ^ Zpos q) by (apply Z.pow_le_mono_r; lia).
    change (2 ^ 24) with (2 ^ 1 * 2 ^ 23).
    apply Z.mul_le_mono_nonneg_r; lia.
  - simpl. split; [lia|]. left. lia.
Qed.

(** Rounding an aligned mantissa of magnitude below 2^127 to binary32
    gives a value that compares below the sentinel. *)
Lemma binary_round_aux_below_max (sx : bool) (p : positive) (ex : Z) (lx : location) :
  let D := Zpos (digits2_pos p) + ex in
  D <= 127 -> ex <= Z.max (D - 24) (-149) ->
  SFltb (binary_round_aux F32.prec F32.emax sx (Zpos p) ex lx) F32.max = true.
Proof.
  intros D HD Hal. unfold binary_round_aux.
  destruct (shr_fexp F32.prec F32.emax (Zpos p) ex lx) as [mrs' e'] eqn:H1.
  destruct (shr_fexp_first p ex lx mrs' e' H1 Hal) as [He' Hm']. fold D in He'.
  pose proof (round_nearest_even_bound (shr_m mrs') (loc_of_shr_record mrs')) as HM.
  destruct (shr_fexp F32.prec F32.emax _ e' loc_Exact) as [mrs'' e''] eqn:H2.
  destruct (shr_fexp_second _ _ _ _ H2) as [Hnn Htop]; [lia|lia|].
  destruct (shr_m mrs'') as [|m|m] eqn:Hm; [by destruct sx| |lia].
  change (F32.emax - F32.prec) with 104.
  destruct (Z.leb_spec e'' 104) as [_|]; [|lia].
  destruct sx; [done|]. unfold SFltb, SFcompare, F32.max.
  destruct (Z.compare_spec e'' 104) as [->|_|]; [|done|lia].
  destruct Htop as [|[_ Hle]]; [lia|].
  rewrite Pos.compare_cont_spec. simpl.
  destruct (Pos.compare_spec m (2 ^ 24 - 1)) as [Heq|_|Hgt]; [|done|].
  - exfalso. rewrite Heq in Hle. revert Hle. by vm_compute.
  - exfalso. change (2 ^ 24 - 1)%positive with 16777215%positive in Hgt.
    change (2 ^ 23) with 8388608 in Hle. lia.
Qed.

(** The cast of line 112 takes a finite value of magnitude below 2^127
    to a [float] strictly below [numeric_limits<float>::max()]. *)
Lemma float_of_double_below_max (d : spec_float) :
  finiteBelow 127 d = true -> SFltb (float_of_double d) F32.max = true.
Proof.
  destruct d as [s|s| |s m e]; simpl; try done.
  intros HD%Z.leb_le. unfold binary_round.
  destruct (shl_align m e _) as [mz ez] eqn:Hal.
  apply shl_align_spec in Hal as [Hez HD'].
  unfold fexp, emin, F32.prec, F32.emax in Hez.
  change (3 - 128 - 24) with (-149) in Hez.
  apply binary_round_aux_below_max.
  - simpl. lia.
  - simpl. rewrite HD'. exact Hez.
Qed.

(** A [double] that compares below 2^127 in absolute value is such a
    value. *)
Lemma below_2p127_finiteBelow (d : spec_float) :
  valid_binary F64.prec F64.emax d = true ->
  SFltb (SFabs d) double_2p127 = true ->
  finiteBelow 127 d = true.
Proof.
  destruct d as [s|s| |s m e]; simpl; try done.
  unfold bounded, canonical_mantissa, fexp, emin, F64.prec, F64.emax.
  change (3 - 1024 - 53) with (-1074).
  intros [Hcan _]%andb_prop. apply Z.eqb_eq in Hcan.
  unfold SFltb, SFcompare, double_2p127.
  destruct (Z.compare_spec e 75) as [->|Hlt|Hgt]; [|intros _; apply Z.leb_le; lia|done].
  rewrite Pos.compare_cont_spec. simpl.
  destruct (Pos.compare_spec m (2 ^ 52)) as [|Hm|]; try done. intros _.
  pose proof (digits2_pos_lower m) as Hl.
  assert (Zpos (digits2_pos m) = 53) as Hd by lia. rewrite Hd in Hl.
  exfalso. change (2 ^ (53 - 1)) with (Zpos (2 ^ 52)) in Hl. lia.
Qed.

(** ** The coupling loop *)

(** The four branches of the classification and their guards. *)
Lemma classify_spec (N0 N1 : Z) (c : Z * Z) :
  (N0 <= c.1 /\ N1 <= c.2 /\ classify N0 N1 c = Ignored) \/
  (N0 <= c.1 /\ c.2 < N1 /\ classify N0 N1 c = FreshNew c.2) \/
  (c.1 < N0 /\ N1 <= c.2 /\ classify N0 N1 c = AbsentOld c.1) \/
  (c.1 < N0 /\ c.2 < N1 /\ classify N0 N1 c = Updated c.1 c.2).
Proof.
  unfold classify.
  destruct (Z.geb_spec c.1 N0), (Z.geb_spec c.2 N1); simpl; intuition lia.
Qed.

Lemma slotEffect_other (N0 N1 : Z) (new : list Mesh) (i : Z) (m : Mesh) (c : Z * Z) :
  c.1 <> i -> slotEffect N0 N1 new i m c = m.
Proof.
  intros Hne. unfold slotEffect.
  destruct (classify_spec N0 N1 c) as [H|[H|[H|H]]];
    destruct H as (_ & _ & ->); try done;
    by destruct (Z.eqb_spec c.1 i).
Qed.

Lemma fold_slotEffect_other (N0 N1 : Z) (new : list Mesh) (i : Z) (l : list (Z * Z)) :
  forall m, Forall (fun c => c.1 <> i) l ->
            fold_left (slotEffect N0 N1 new i) l m = m.
Proof.
  induction l as [|c l IH]; intros m Hl; simpl; [done|].
  inversion Hl; subst. rewrite slotEffect_other by done. by apply IH.
Qed.

(** One step of the loop: the registry keeps its size, each slot
    receives its own effect, the queue grows by the queued mesh. *)
Lemma couple_spec (N0 N1 : Z) (new : list Mesh) (st st' : Coupling) (c : Z * Z) :
  couple N0 N1 new st c = Some st' ->
  length (meshes st') = length (meshes st) /\
  (forall i : nat, meshes st' !! i
                   = (fun m => slotEffect N0 N1 new (Z.of_nat i) m c) <$> meshes st !! i) /\
  pendingForAdd st' = pendingForAdd st ++ pendingOf N0 N1 [c].
Proof.
  unfold couple, slotEffect, pendingOf. simpl.
  destruct (classify N0 N1 c) as [|i1|i0|i0 i1]; simpl.
  - intros [= <-]. rewrite app_nil_r. split_and!; [done| |done].
    intros i. by destruct (meshes st !! i).
  - intros [= <-]. simpl. split_and!; [done| |done].
    intros i. by destruct (meshes st !! i).
  - destruct (vec_at (meshes st) i0) as [old|] eqn:Hold; simpl; [|done].
    intros [= <-]. simpl. rewrite app_nil_r, length_insert.
    apply vec_at_Some in Hold as [Hi0 Hold].
    split_and!; [done| |done].
    intros i. destruct (Z.eqb_spec i0 (Z.of_nat i)) as [->|Hne].
    + rewrite Nat2Z.id in *. rewrite Hold. simpl.
      apply list_lookup_insert_eq. by eapply lookup_lt_Some.
    + rewrite list_lookup_insert_ne by lia. by destruct (meshes st !! i).
  - destruct (vec_at (meshes st) i0) as [old|] eqn:Hold; simpl; [|done].
    destruct (vec_at new i1) as [fresh|] eqn:Hfresh; simpl; [|done].
    intros [= <-]. simpl. rewrite app_nil_r, length_insert.
    apply vec_at_Some in Hold as [Hi0 Hold].
    split_and!; [done| |done].
    intros i. destruct (Z.eqb_spec i0 (Z.of_nat i)) as [->|Hne].
    + rewrite Nat2Z.id in *. rewrite Hold. simpl.
      apply list_lookup_insert_eq. by eapply lookup_lt_Some.
    + rewrite list_lookup_insert_ne by lia. by destruct (meshes st !! i).
Qed.

Lemma pendingOf_app (N0 N1 : Z) (l1 l2 : list (Z * Z)) :
  pendingOf N0 N1 (l1 ++ l2) = pendingOf N0 N1 l1 ++ pendingOf N0 N1 l2.
Proof. unfold pendingOf. apply omap_app. Qed.

Lemma coupleAll_spec (N0 N1 : Z) (new : list Mesh) (l : list (Z * Z)) :
  forall st st' : Coupling,
  coupleAll N0 N1 new l st = Some st' ->
  length (meshes st') = length (meshes st) /\
  (forall i : nat, meshes st' !! i
                   = fold_left (slotEffect N0 N1 new (Z.of_nat i)) l <$> meshes st !! i) /\
  pendingForAdd st' = pendingForAdd st ++ pendingOf N0 N1 l.
Proof.
  induction l as [|c l IH]; intros st st'; simpl.
  - intros [= <-]. rewrite app_nil_r. split_and!; [done| |done].
    intros i. by destruct (meshes st !! i).
  - destruct (couple N0 N1 new st c) as [st1|] eqn:Hstep; simpl; [|done].
    intros Hrest.
    destruct (couple_spec _ _ _ _ _ _ Hstep) as (Hlen1 & Hat1 & Hq1).
    destruct (IH _ _ Hrest) as (Hlen & Hat & Hq).
    split_and!.
    + congruence.
    + intros i. rewrite Hat, Hat1. by destruct (meshes st !! i).
    + rewrite Hq, Hq1, <- app_assoc. f_equal.
      symmetry. apply (pendingOf_app N0 N1 [c] l).
Qed.

(** The loop stays inside its vectors when no index is negative. *)
Lemma couple_defined (N0 N1 : Z) (new : list Mesh) (st : Coupling) (c : Z * Z) :
  0 <= c.1 -> 0 <= c.2 ->
  N0 = Z.of_nat (length (meshes st)) -> N1 = Z.of_nat (length new) ->
  is_Some (couple N0 N1 new st c).
Proof.
  intros H1 H2 HN0 HN1. unfold couple.
  destruct (classify_spec N0 N1 c) as [H|[H|[H|H]]];
    destruct H as (Hr & Hc & ->); try done.
  - destruct (vec_at_in_range (meshes st) c.1) as [old ->]; [lia|]. done.
  - destruct (vec_at_in_range (meshes st) c.1) as [old ->]; [lia|].
    destruct (vec_at_in_range new c.2) as [fresh ->]; [lia|]. done.
Qed.

Lemma coupleAll_defined (N0 N1 : Z) (new : list Mesh) (l : list (Z * Z)) :
  forall st : Coupling,
  nonnegative l = true ->
  N0 = Z.of_nat (length (meshes st)) -> N1 = Z.of_nat (length new) ->
  is_Some (coupleAll N0 N1 new l st).
Proof.
  induction l as [|c l IH]; intros st Hl HN0 HN1; simpl; [done|].
  unfold nonnegative in Hl. simpl in Hl.
  apply andb_prop in Hl as [Hc Hl]. apply andb_prop in Hc as [Hc1 Hc2].
  destruct (couple_defined N0 N1 new st c) as [st1 Hstep]; [lia..|done|done|].
  rewrite Hstep. simpl. apply IH; [done| |done].
  destruct (couple_spec _ _ _ _ _ _ Hstep) as (Hlen1 & _). congruence.
Qed.

(** The queue holds columns of real new meshes. *)
Lemma pendingOf_in_range (N0 N1 : Z) (l : list (Z * Z)) :
  nonnegative l = true -> Forall (fun n => 0 <= n < N1) (pendingOf N0 N1 l).
Proof.
  induction l as [|c l IH]; intros Hl; [constructor|].
  unfold nonnegative in Hl. simpl in Hl.
  apply andb_prop in Hl as [Hc Hl]. apply andb_prop in Hc as [Hc1 Hc2].
  unfold pendingOf. simpl.
  destruct (classify_spec N0 N1 c) as [H|[H|[H|H]]];
    destruct H as (Hr & Hcc & ->); simpl; try by apply IH.
  constructor; [lia|by apply IH].
Qed.

(** The addition loop appends the queued meshes as they are. *)
Lemma addPending_spec (new : list Mesh) (pending : list Z) :
  forall curr : list Mesh,
  Forall (fun n => 0 <= n < Z.of_nat (length new)) pending ->
  exists added,
    addPending new pending curr = Some (curr ++ added) /\
    Forall2 (fun n m => vec_at new n = Some m) pending added.
Proof.
  induction pending as [|n pending IH]; intros curr Hp; simpl.
  - exists []. by rewrite app_nil_r.
  - inversion Hp as [|? ? Hn Hrest]; subst.
    destruct (vec_at_in_range new n Hn) as [m Hm]. rewrite Hm. simpl.
    destruct (IH (curr ++ [m]) Hrest) as (added & Hadd & Hall).
    exists (m :: added). rewrite Hadd, <- app_assoc. split; [done|].
    by constructor.
Qed.

(** ** One call of [alignMeshes] *)

Lemma nonempty_length (curr : list Mesh) :
  curr <> [] -> (length curr =? 0)%nat = false.
Proof. destruct curr; [done|]. intros _. reflexivity. Qed.

(** The bootstrap case: the new meshes are copied, nothing else runs. *)
Lemma alignMeshes_bootstrap (this : Tracker) (new : list Mesh) (d : spec_float) :
  currMeshes this = [] ->
  alignMeshes this new d =
    Some ({| debug := debug this; currMeshes := new |},
          when (debug this) (logAligning 0 (Z.of_nat (length new)))).
Proof. intros Hempty. unfold alignMeshes. by rewrite Hempty. Qed.

Lemma seqZ_indexes {A} (v : list A) :
  Forall2 (fun n x => vec_at v n = Some x) (seqZ 0 (Z.of_nat (length v))) v.
Proof.
  apply Forall2_same_length_lookup_2.
  - rewrite length_seqZ. lia.
  - intros i n x Hn Hx. apply lookup_seqZ in Hn as [-> _].
    rewrite Z.add_0_l, vec_at_of_nat. done.
Qed.

(** Every call that stays inside its vectors returns; each slot of the
    old registry then holds what its own couples made of it, and the
    appended meshes follow. *)
Lemma alignMeshes_spec (this : Tracker) (new : list Mesh) (d : spec_float) :
  nonnegative (couples this new) = true ->
  exists out added,
    alignMeshes this new d =
      Some ({| debug := debug this;
               currMeshes :=
                 imap (fun i => slotAfter this new (Z.of_nat i)) (currMeshes this)
                 ++ added |}, out) /\
    Forall2 (fun n m => vec_at new n = Some m) (appended this new) added.
Proof.
  intros Hnn. destruct (decide (currMeshes this = [])) as [Hempty|Hne].
  - rewrite alignMeshes_bootstrap by done.
    unfold appended. rewrite Hempty. simpl.
    eexists _, new. split; [done|]. apply seqZ_indexes.
  - unfold alignMeshes, appended, couples in *.
    rewrite nonempty_length in * by done.
    set (N0 := Z.of_nat (length (currMeshes this))) in *.
    set (N1 := Z.of_nat (length new)) in *.
    set (l := optimiseMinima _) in *.
    destruct (coupleAll_defined N0 N1 new l (startCoupling (currMeshes this)))
      as [st Hst]; [done..|].
    rewrite Hst. simpl.
    destruct (coupleAll_spec _ _ _ _ _ _ Hst) as (Hlen & Hat & Hq).
    simpl in Hq, Hat, Hlen.
    destruct (addPending_spec new (pendingForAdd st) (meshes st))
      as (added & Hadd & Hall).
    { rewrite Hq. by apply pendingOf_in_range. }
    rewrite Hadd. simpl.
    assert (meshes st
            = imap (fun i => slotAfter this new (Z.of_nat i)) (currMeshes this))
      as Hslots.
    { apply list_eq. intros i.
      rewrite Hat, list_lookup_imap. unfold slotAfter, couples.
      by rewrite nonempty_length by done. }
    rewrite Hslots. eexists _, added. split; [done|]. by rewrite <- Hq.
Qed.

(** The registry a call leaves does not depend on the debug flag, and
    the flag is kept. *)
Lemma alignMeshes_flag (b : bool) (reg new : list Mesh) (d : spec_float) :
  fst <$> alignMeshes {| debug := b; currMeshes := reg |} new d =
    (fun p => {| debug := b; currMeshes := currMeshes p.1 |})
      <$> alignMeshes {| debug := false; currMeshes := reg |} new d.
Proof.
  unfold alignMeshes. simpl.
  destruct (length reg =? 0)%nat; [done|].
  destruct (coupleAll _ _ _ _ _) as [st|]; simpl; [|done].
  by destruct (addPending _ _ _).
Qed.

(** ** Counting and perfect matchings *)

Lemma tally_app {A} (p : A -> bool) (l1 l2 : list A) :
  tally p (l1 ++ l2) = (tally p l1 + tally p l2)%nat.
Proof. induction l1 as [|x l1 IH]; simpl; [done|]. rewrite IH. lia. Qed.

Lemma tally_map {A B} (f : A -> B) (p : B -> bool) (l : list A) :
  tally p (map f l) = tally (fun x => p (f x)) l.
Proof. induction l as [|x l IH]; simpl; [done|]. by rewrite IH. Qed.

Lemma tally_none {A} (p : A -> bool) (l : list A) :
  tally p l = O <-> Forall (fun x => p x = false) l.
Proof.
  induction l as [|x l IH]; simpl.
  - split; [constructor|done].
  - destruct (p x) eqn:Hx; split.
    + intros; lia.
    + intros Hl. inversion Hl; congruence.
    + intros Hl. constructor; [done|]. apply IH. lia.
    + intros Hl. inversion Hl; subst. simpl. by apply IH.
Qed.

Lemma tally_one_elem {A} (p : A -> bool) (l : list A) :
  tally p l = 1%nat -> exists x, x ∈ l /\ p x = true.
Proof.
  induction l as [|x l IH]; simpl; [done|].
  destruct (p x) eqn:Hx.
  - intros _. exists x. split; [left|done].
  - intros H. destruct (IH H) as (y & Hy & Hpy). exists y. split; [by right|done].
Qed.

(** Two tests that split a third: their tallies add up to its tally. *)
Lemma tally_split {A} (p q r : A -> bool) (l : list A) :
  (forall x, ((if p x then 1 else 0) + (if q x then 1 else 0)
              = (if r x then 1 else 0))%nat) ->
  (tally p l + tally q l = tally r l)%nat.
Proof.
  intros H. induction l as [|x l IH]; simpl; [done|].
  specialize (H x). lia.
Qed.

Lemma occurrences_seqZ (j n : Z) :
  0 <= j < n -> occurrences j (seqZ 0 n) = 1%nat.
Proof.
  intros Hj. unfold occurrences.
  replace n with (j + (1 + (n - j - 1))) by lia.
  rewrite seqZ_app, seqZ_app, !tally_app by lia.
  rewrite (proj2 (tally_none _ (seqZ 0 j))), (proj2 (tally_none _ (seqZ _ (n - j - 1)))).
  - rewrite seqZ_cons, seqZ_nil by lia. simpl. by rewrite Z.eqb_refl.
  - apply Forall_forall. intros x Hx%elem_of_seqZ. apply Z.eqb_neq. lia.
  - apply Forall_forall. intros x Hx%elem_of_seqZ. apply Z.eqb_neq. lia.
Qed.

Lemma perfect_inSquare (N : Z) (l : list (Z * Z)) :
  perfect_matching N l = true ->
  Forall (fun c => (0 <= c.1 < N) /\ (0 <= c.2 < N)) l.
Proof.
  unfold perfect_matching. intros [Hsq _]%andb_prop.
  apply Forall_forall. intros c Hc%list_elem_of_In.
  rewrite forallb_forall in Hsq. specialize (Hsq c Hc).
  unfold inSquare in Hsq. lia.
Qed.

Lemma perfect_nonnegative (N : Z) (l : list (Z * Z)) :
  perfect_matching N l = true -> nonnegative l = true.
Proof.
  intros Hp%perfect_inSquare. unfold nonnegative.
  apply forallb_forall. intros c Hc%list_elem_of_In.
  rewrite Forall_forall in Hp. specialize (Hp c Hc). lia.
Qed.

Lemma perfect_row (N : Z) (l : list (Z * Z)) (i : Z) :
  perfect_matching N l = true -> 0 <= i < N ->
  tally (fun c => c.1 =? i) l = 1%nat.
Proof.
  unfold perfect_matching. intros [_ Hall]%andb_prop Hi.
  rewrite forallb_forall in Hall.
  specialize (Hall i). rewrite <- list_elem_of_In, elem_of_seqZ in Hall.
  specialize (Hall ltac:(lia)). apply andb_prop in Hall as [Hr _].
  by apply Nat.eqb_eq.
Qed.

Lemma perfect_col (N : Z) (l : list (Z * Z)) (j : Z) :
  perfect_matching N l = true -> 0 <= j < N ->
  tally (fun c => c.2 =? j) l = 1%nat.
Proof.
  unfold perfect_matching. intros [_ Hall]%andb_prop Hj.
  rewrite forallb_forall in Hall.
  specialize (Hall j). rewrite <- list_elem_of_In, elem_of_seqZ in Hall.
  specialize (Hall ltac:(lia)). apply andb_prop in Hall as [_ Hc].
  by apply Nat.eqb_eq.
Qed.

(** When a single couple addresses slot [i], the whole loop does to the
    slot what that couple does. *)
Lemma fold_slotEffect_unique (N0 N1 : Z) (new : list Mesh) (i : Z)
    (l : list (Z * Z)) (c : Z * Z) :
  forall m,
  tally (fun c => c.1 =? i) l = 1%nat -> c ∈ l -> c.1 = i ->
  fold_left (slotEffect N0 N1 new i) l m = slotEffect N0 N1 new i m c.
Proof.
  induction l as [|x l IH]; intros m Ht Hc Hi; [by apply elem_of_nil in Hc|].
  simpl in *. destruct (Z.eqb_spec x.1 i) as [Hx|Hx].
  - assert (Forall (fun y => (y.1 =? i) = false) l) as Hl
      by (apply tally_none; lia).
    apply elem_of_cons in Hc as [->|Hc].
    + apply fold_slotEffect_other.
      eapply Forall_impl; [exact Hl|]. intros y Hy. by apply Z.eqb_neq.
    + rewrite Forall_forall in Hl. specialize (Hl c Hc).
      apply Z.eqb_neq in Hl. done.
  - rewrite slotEffect_other by done.
    apply elem_of_cons in Hc as [->|Hc]; [done|].
    apply IH; [lia|done..].
Qed.

(** The events of a verdict list, told from the couples. *)
Lemma row_events (N0 N1 i : Z) (l : list (Z * Z)) :
  i < N0 ->
  (tally (isUpdateOf i) (map (classify N0 N1) l)
   + tally (isAbsenceOf i) (map (classify N0 N1) l)
   = tally (fun c => Z.eqb c.1 i) l)%nat.
Proof.
  intros Hi. rewrite !tally_map. apply tally_split. intros c.
  destruct (classify_spec N0 N1 c) as [H|[H|[H|H]]];
    destruct H as (Hr & Hc & ->); simpl;
    destruct (Z.eqb_spec c.1 i); (done || lia).
Qed.

Lemma pendingOf_cons (N0 N1 : Z) (c : Z * Z) (l : list (Z * Z)) :
  pendingOf N0 N1 (c :: l) =
    match classify N0 N1 c with
    | FreshNew i1 => i1 :: pendingOf N0 N1 l
    | _ => pendingOf N0 N1 l
    end.
Proof. unfold pendingOf. simpl. by destruct (classify N0 N1 c). Qed.

Lemma occurrences_pendingOf (N0 N1 j : Z) (l : list (Z * Z)) :
  occurrences j (pendingOf N0 N1 l)
  = tally (isQueuingOf j) (map (classify N0 N1) l).
Proof.
  unfold occurrences. induction l as [|c l IH]; [done|].
  rewrite pendingOf_cons. simpl map.
  destruct (classify N0 N1 c) as [|i1|i0|i0 i1]; simpl; try done.
  by rewrite IH.
Qed.

Lemma col_events (N0 N1 j : Z) (l : list (Z * Z)) :
  j < N1 ->
  (tally (isUpdateBy j) (map (classify N0 N1) l)
   + occurrences j (pendingOf N0 N1 l)
   = tally (fun c => Z.eqb c.2 j) l)%nat.
Proof.
  intros Hj. rewrite occurrences_pendingOf, !tally_map. apply tally_split. intros c.
  destruct (classify_spec N0 N1 c) as [H|[H|[H|H]]];
    destruct H as (Hr & Hc & ->); simpl;
    destruct (Z.eqb_spec c.2 j); (done || lia).
Qed.

Lemma elem_of_verdicts (N0 N1 : Z) (l : list (Z * Z)) (v : Verdict) :
  v ∈ map (classify N0 N1) l -> exists c, c ∈ l /\ classify N0 N1 c = v.
Proof. intros (c & -> & Hc)%list_elem_of_fmap. eauto. Qed.

Lemma classify_Updated (N0 N1 : Z) (c : Z * Z) (i j : Z) :
  classify N0 N1 c = Updated i j -> c = (i, j) /\ i < N0 /\ j < N1.
Proof.
  destruct (classify_spec N0 N1 c) as [H|[H|[H|H]]];
    destruct H as (Hr & Hc & ->); try done.
  intros [= <- <-]. by destruct c.
Qed.

Lemma classify_AbsentOld (N0 N1 : Z) (c : Z * Z) (i : Z) :
  classify N0 N1 c = AbsentOld i -> c.1 = i /\ i < N0 /\ N1 <= c.2.
Proof.
  destruct (classify_spec N0 N1 c) as [H|[H|[H|H]]];
    destruct H as (Hr & Hc & ->); try done.
  by intros [= <-].
Qed.

(** ** Reading the registry a call leaves *)

Lemma lookup_old_slot (f : nat -> Mesh -> Mesh) (curr added : list Mesh)
    (i : nat) (old : Mesh) :
  curr !! i = Some old -> (imap f curr ++ added) !! i = Some (f i old).
Proof.
  intros Hold. rewrite lookup_app_l.
  - by rewrite list_lookup_imap, Hold.
  - rewrite length_imap. by eapply lookup_lt_Some.
Qed.

Lemma lookup_new_slot (f : nat -> Mesh -> Mesh) (curr added new : list Mesh)
    (queue : list Z) (p : nat) (n : Z) :
  Forall2 (fun n m => vec_at new n = Some m) queue added ->
  queue !! p = Some n ->
  exists fresh, vec_at new n = Some fresh /\
                (imap f curr ++ added) !! (length curr + p)%nat = Some fresh.
Proof.
  intros Hall Hp.
  destruct (Forall2_lookup_l _ _ _ _ _ Hall Hp) as (fresh & Hfresh & Hn).
  exists fresh. split; [done|].
  rewrite lookup_app_r; rewrite length_imap; [|lia].
  by replace (length curr + p - length curr)%nat with p by lia.
Qed.

(** The couples of a call with a perfect matching, when there is a
    registry to match. *)
Lemma couples_perfect (this : Tracker) (new : list Mesh) :
  let N := Z.max (Z.of_nat (length (currMeshes this))) (Z.of_nat (length new)) in
  currMeshes this <> [] ->
  perfect_matching N (optimiseMinima (costMatrix (currMeshes this) new)) = true ->
  perfect_matching N (couples this new) = true.
Proof. intros N Hne Hp. unfold couples. by rewrite nonempty_length. Qed.

Lemma couples_bootstrap (this : Tracker) (new : list Mesh) :
  currMeshes this = [] -> couples this new = [].
Proof. intros H. unfold couples. by rewrite H. Qed.

(** ** The perfect-matching invariant *)

(** C1.  With a perfect matching from the solver, a call returns, and
    it classifies every entry of the old registry exactly once, as
    updated with one new mesh or as absent, and every new mesh exactly
    once, as the update of one entry or as appended to the registry;
    the registry the call leaves shows each of these outcomes: an
    updated entry holds [update] of its mesh and the new one, an absent
    entry its geometry with [lengthOfAbsence] one higher, an appended
    mesh stands behind the old entries. *)
Theorem alignMeshes_classifies_once (this : Tracker) (new : list Mesh)
    (maxDist : spec_float) :
  let N0 := Z.of_nat (length (currMeshes this)) in
  let N1 := Z.of_nat (length new) in
  (currMeshes this <> [] ->
   perfect_matching (Z.max N0 N1)
     (optimiseMinima (costMatrix (currMeshes this) new)) = true) ->
  exists this' out,
    alignMeshes this new maxDist = Some (this', out) /\
    (forall (i : nat) (old : Mesh),
        currMeshes this !! i = Some old ->
        (tally (isUpdateOf (Z.of_nat i)) (verdicts this new)
         + tally (isAbsenceOf (Z.of_nat i)) (verdicts this new) = 1)%nat /\
        (forall j, Updated (Z.of_nat i) j ∈ verdicts this new ->
                   exists fresh, vec_at new j = Some fresh /\
                                 currMeshes this' !! i = Some (update old fresh)) /\
        (AbsentOld (Z.of_nat i) ∈ verdicts this new ->
         currMeshes this' !! i
         = Some {| geometry := geometry old;
                   lengthOfAbsence := lengthOfAbsence old + 1 |})) /\
    (forall (j : nat) (fresh : Mesh),
        new !! j = Some fresh ->
        (tally (isUpdateBy (Z.of_nat j)) (verdicts this new)
         + occurrences (Z.of_nat j) (appended this new) = 1)%nat /\
        (forall i, Updated i (Z.of_nat j) ∈ verdicts this new ->
                   exists old, vec_at (currMeshes this) i = Some old /\
                               currMeshes this' !! Z.to_nat i = Some (update old fresh)) /\
        (forall p : nat, appended this new !! p = Some (Z.of_nat j) ->
                   currMeshes this' !! (length (currMeshes this) + p)%nat = Some fresh)).
Proof.
  intros N0 N1 Hsolver.
  assert (perfect_matching (Z.max N0 N1) (couples this new) = true
          \/ currMeshes this = []) as Hcases.
  { destruct (decide (currMeshes this = [])) as [|Hne]; [by right|].
    left. apply couples_perfect; auto. }
  assert (nonnegative (couples this new) = true) as Hnn.
  { destruct Hcases as [Hp|Hempty]; [by eapply perfect_nonnegative|].
    by rewrite couples_bootstrap. }
  destruct (alignMeshes_spec this new maxDist Hnn) as (out & added & Hrun & Hadded).
  eexists _, out. split; [exact Hrun|]. simpl. split.
  - (* the entries of the old registry *)
    intros i old Hold.
    assert (currMeshes this <> []) as Hne by (intros E; by rewrite E in Hold).
    destruct Hcases as [Hp|]; [|done].
    assert (Z.of_nat i < N0) as Hi by (apply lookup_lt_Some in Hold; lia).
    pose proof (perfect_row _ _ (Z.of_nat i) Hp ltac:(lia)) as Hrow.
    pose proof (perfect_inSquare _ _ Hp) as Hsq. rewrite Forall_forall in Hsq.
    rewrite (lookup_old_slot _ _ _ _ _ Hold). unfold slotAfter, verdicts.
    fold N0 N1. split_and!.
    + by rewrite row_events.
    + intros j (c & Hc & Hv)%elem_of_verdicts.
      apply classify_Updated in Hv as (-> & _ & Hj).
      destruct (vec_at_in_range new j) as [fresh Hfresh].
      { specialize (Hsq _ Hc). simpl in Hsq. lia. }
      exists fresh. split; [done|]. f_equal.
      rewrite (fold_slotEffect_unique _ _ _ _ _ (Z.of_nat i, j)) by done.
      unfold slotEffect, classify. simpl.
      destruct (Z.geb_spec (Z.of_nat i) N0); [lia|].
      destruct (Z.geb_spec j N1); [lia|]. simpl.
      by rewrite Z.eqb_refl, Hfresh.
    + intros (c & Hc & Hv)%elem_of_verdicts. f_equal.
      pose proof Hv as (Hc1 & _ & Hc2)%classify_AbsentOld.
      rewrite (fold_slotEffect_unique _ _ _ _ _ c) by done.
      unfold slotEffect. by rewrite Hv, Z.eqb_refl.
  - (* the new meshes *)
    intros j fresh Hfresh.
    assert (Z.of_nat j < N1) as Hj by (apply lookup_lt_Some in Hfresh; lia).
    split_and!.
    + destruct Hcases as [Hp|Hempty].
      * destruct (decide (currMeshes this = [])) as [Hempty|Hne].
        -- unfold verdicts, appended. rewrite couples_bootstrap, Hempty by done.
           simpl. by apply occurrences_seqZ; lia.
        -- unfold verdicts, appended. rewrite nonempty_length by done.
           fold N0 N1. rewrite col_events by done.
           apply (perfect_col _ _ _ Hp). lia.
      * unfold verdicts, appended. rewrite couples_bootstrap, Hempty by done.
        simpl. by apply occurrences_seqZ; lia.
    + intros i (c & Hc & Hv)%elem_of_verdicts.
      apply classify_Updated in Hv as (-> & Hi & _).
      destruct Hcases as [Hp|Hempty];
        [|by rewrite couples_bootstrap in Hc by done; apply elem_of_nil in Hc].
      pose proof (perfect_inSquare _ _ Hp) as Hsq. rewrite Forall_forall in Hsq.
      specialize (Hsq _ Hc). simpl in Hsq.
      destruct (vec_at_in_range (currMeshes this) i) as [old Hold]; [lia|].
      exists old. split; [done|].
      apply vec_at_Some in Hold as [_ Hold].
      rewrite (lookup_old_slot _ _ _ _ _ Hold). f_equal.
      unfold slotAfter. fold N0 N1. rewrite Z2Nat.id by lia.
      rewrite (fold_slotEffect_unique _ _ _ _ _ (i, Z.of_nat j));
        [|apply (perfect_row _ _ _ Hp); lia|done..].
      unfold slotEffect, classify. simpl.
      destruct (Z.geb_spec i N0); [lia|].
      destruct (Z.geb_spec (Z.of_nat j) N1); [lia|]. simpl.
      by rewrite Z.eqb_refl, vec_at_of_nat, Hfresh.
    + intros p Hp.
      destruct (lookup_new_slot (fun i => slotAfter this new (Z.of_nat i))
                  (currMeshes this) added new _ p _ Hadded Hp)
        as (fresh' & Hf & Hlook).
      rewrite vec_at_of_nat in Hf. congruence.
Qed.

(** ** The bootstrap case *)

(** C3, as the code has it.  With an empty registry a call runs no
    matching and leaves a registry of the size of [newMeshes], in which
    every entry has the absence counter its input mesh came with: 0
    whenever the input meshes arrive with a counter of 0. *)
Theorem bootstrap_counters (this : Tracker) (new : list Mesh)
    (maxDist : spec_float) :
  currMeshes this = [] ->
  exists this' out,
    alignMeshes this new maxDist = Some (this', out) /\
    couples this new = [] /\
    length (currMeshes this') = length new /\
    map lengthOfAbsence (currMeshes this') = map lengthOfAbsence new /\
    (Forall (fun m => lengthOfAbsence m = 0) new ->
     Forall (fun m => lengthOfAbsence m = 0) (currMeshes this')).
Proof.
  intros Hempty. rewrite alignMeshes_bootstrap by done.
  eexists _, _. split; [done|]. simpl.
  split; [by apply couples_bootstrap|]. done.
Qed.

(** C10.  With an empty registry a call appends every input mesh as it
    is: the registry it leaves is the input list itself, every field
    of every entry included. *)
Theorem bootstrap_appends_unmodified (this : Tracker) (new : list Mesh)
    (maxDist : spec_float) :
  currMeshes this = [] ->
  exists out,
    alignMeshes this new maxDist
    = Some ({| debug := debug this; currMeshes := new |}, out) /\
    forall (j : nat) (fresh : Mesh),
      new !! j = Some fresh ->
      exists entry,
        registryAfter (alignMeshes this new maxDist) ≫= (fun reg => reg !! j)
        = Some entry /\
        geometry entry = geometry fresh /\
        lengthOfAbsence entry = lengthOfAbsence fresh.
Proof.
  intros Hempty. rewrite alignMeshes_bootstrap by done.
  eexists. split; [done|]. intros j fresh Hfresh. simpl.
  exists fresh. by rewrite Hfresh.
Qed.

(** ** Frames without detections *)

Lemma pendingOf_no_new (N0 : Z) (l : list (Z * Z)) :
  nonnegative l = true -> pendingOf N0 0 l = [].
Proof.
  intros Hl%(pendingOf_in_range N0 0).
  destruct (pendingOf N0 0 l) as [|n q]; [done|].
  inversion Hl; lia.
Qed.

(** One frame without detections: every entry becomes absent once. *)
Lemma alignMeshes_no_new (this : Tracker) (maxDist : spec_float) :
  currMeshes this <> [] ->
  perfect_matching (Z.of_nat (length (currMeshes this)))
    (optimiseMinima (costMatrix (currMeshes this) [])) = true ->
  exists out,
    alignMeshes this [] maxDist
    = Some ({| debug := debug this; currMeshes := map absent (currMeshes this) |}, out).
Proof.
  intros Hne Hp.
  assert (couples this [] = optimiseMinima (costMatrix (currMeshes this) [])) as Hc.
  { unfold couples. by rewrite nonempty_length. }
  pose proof (perfect_nonnegative _ _ Hp) as Hnn. rewrite <- Hc in Hnn, Hp.
  destruct (alignMeshes_spec this [] maxDist Hnn) as (out & added & Hrun & Hadded).
  exists out. rewrite Hrun. do 3 f_equal.
  unfold appended in Hadded. rewrite nonempty_length in Hadded by done.
  simpl in Hadded. rewrite pendingOf_no_new in Hadded by done.
  apply Forall2_nil_inv_l in Hadded as ->. rewrite app_nil_r.
  apply list_eq. intros i. rewrite list_lookup_imap, list_lookup_fmap.
  destruct (currMeshes this !! i) as [old|] eqn:Hold; [|done]. simpl. f_equal.
  assert (Z.of_nat i < Z.of_nat (length (currMeshes this))) as Hi
    by (apply lookup_lt_Some in Hold; lia).
  pose proof (perfect_row _ _ (Z.of_nat i) Hp ltac:(lia)) as Hrow.
  pose proof (perfect_inSquare _ _ Hp) as Hsq. rewrite Forall_forall in Hsq.
  destruct (tally_one_elem _ _ Hrow) as (c & Hin & Hc1%Z.eqb_eq).
  unfold slotAfter. simpl length.
  rewrite (fold_slotEffect_unique _ _ _ _ _ c) by done.
  specialize (Hsq _ Hin). unfold slotEffect, classify.
  destruct (Z.geb_spec c.1 (Z.of_nat (length (currMeshes this)))); [lia|].
  destruct (Z.geb_spec c.2 (Z.of_nat 0)); [|lia]. simpl.
  by rewrite Hc1, Z.eqb_refl.
Qed.

Lemma absentFor_S (k : nat) (m : Mesh) : absentFor k (absent m) = absentFor (S k) m.
Proof. unfold absentFor, absent. simpl. f_equal. lia. Qed.

Lemma absentFor_0 (m : Mesh) : absentFor 0 m = m.
Proof. destruct m. unfold absentFor. simpl. f_equal. lia. Qed.

(** C4.  With a non-empty registry and a perfect matching from the
    solver, [k] consecutive calls without new meshes return, add [k]
    to the absence counter of every entry, change nothing else and
    append no entry. *)
Theorem alignEmpty_accumulates (k : nat) (this : Tracker) (maxDist : spec_float) :
  currMeshes this <> [] ->
  perfect_matching (Z.of_nat (length (currMeshes this)))
    (optimiseMinima (costMatrix (currMeshes this) [])) = true ->
  alignEmpty k this maxDist
  = Some {| debug := debug this;
            currMeshes := map (absentFor k) (currMeshes this) |}.
Proof.
  revert this. induction k as [|k IH]; intros this Hne Hp; simpl.
  - destruct this as [b reg]. simpl. do 2 f_equal.
    rewrite <- (map_id reg) at 1. apply map_ext. intros m.
    symmetry. apply absentFor_0.
  - destruct (alignMeshes_no_new this maxDist Hne Hp) as [out ->]. simpl.
    rewrite IH; simpl.
    + do 2 f_equal. rewrite map_map. apply map_ext. intros m.
      apply absentFor_S.
    + destruct (currMeshes this); done.
    + rewrite !costMatrix_no_new in *. by rewrite length_map.
Qed.

(** ** What a call leaves in place *)

(** C9.  A call that stays inside its vectors returns; it removes no
    entry and moves none: slot [i] of the old registry is slot [i]
    afterwards, holding what the couples addressed to it made of its
    mesh; the appended meshes come behind, one for each queued new
    mesh, so that the size grows by their number. *)
Theorem alignMeshes_keeps_entries (this : Tracker) (new : list Mesh)
    (maxDist : spec_float) :
  nonnegative (couples this new) = true ->
  exists this' out,
    alignMeshes this new maxDist = Some (this', out) /\
    length (currMeshes this')
    = (length (currMeshes this) + length (appended this new))%nat /\
    (forall (i : nat) (old : Mesh),
        currMeshes this !! i = Some old ->
        currMeshes this' !! i = Some (slotAfter this new (Z.of_nat i) old) /\
        (Forall (fun c => c.1 <> Z.of_nat i) (couples this new) ->
         currMeshes this' !! i = Some old)) /\
    (forall (p : nat) (n : Z),
        appended this new !! p = Some n ->
        exists fresh, vec_at new n = Some fresh /\
          currMeshes this' !! (length (currMeshes this) + p)%nat = Some fresh).
Proof.
  intros Hnn.
  destruct (alignMeshes_spec this new maxDist Hnn) as (out & added & Hrun & Hadded).
  eexists _, out. split; [exact Hrun|]. simpl. split_and!.
  - rewrite length_app, length_imap. f_equal.
    symmetry. by eapply Forall2_length.
  - intros i old Hold.
    rewrite (lookup_old_slot (fun i => slotAfter this new (Z.of_nat i)) _ _ _ _ Hold).
    split; [done|]. intros Hfree. f_equal.
    unfold slotAfter. by apply fold_slotEffect_other.
  - intros p n Hp.
    by apply (lookup_new_slot (fun i => slotAfter this new (Z.of_nat i))
                _ _ _ (appended this new)).
Qed.

(** ** Appending the queued meshes *)

(** C5, as the code has it.  In a call with a non-empty registry that
    stays inside its vectors, the coupling loop runs to its end on the
    old registry alone; every new mesh it queued, the column of a
    couple with a padding row, is then appended behind the entries the
    loop left, as it is: with the absence counter the input mesh came
    with. *)
Theorem pending_appended_after_coupling (this : Tracker) (new : list Mesh)
    (maxDist : spec_float) :
  let N0 := Z.of_nat (length (currMeshes this)) in
  let N1 := Z.of_nat (length new) in
  let match_ := optimiseMinima (costMatrix (currMeshes this) new) in
  currMeshes this <> [] ->
  nonnegative match_ = true ->
  exists st added out,
    coupleAll N0 N1 new match_ (startCoupling (currMeshes this)) = Some st /\
    length (meshes st) = length (currMeshes this) /\
    alignMeshes this new maxDist
    = Some ({| debug := debug this; currMeshes := meshes st ++ added |}, out) /\
    Forall2 (fun n m => vec_at new n = Some m) (pendingForAdd st) added /\
    (forall c, c ∈ match_ -> N0 <= c.1 -> c.2 < N1 ->
       exists (p : nat) (fresh : Mesh),
         pendingForAdd st !! p = Some c.2 /\
         vec_at new c.2 = Some fresh /\
         (meshes st ++ added) !! (length (currMeshes this) + p)%nat = Some fresh /\
         lengthOfAbsence fresh
         = from_option lengthOfAbsence 0 (vec_at new c.2)).
Proof.
  intros N0 N1 match_ Hne Hnn.
  destruct (coupleAll_defined N0 N1 new match_ (startCoupling (currMeshes this)))
    as [st Hst]; [done..|].
  destruct (coupleAll_spec _ _ _ _ _ _ Hst) as (Hlen & Hat & Hq).
  simpl in Hlen, Hq.
  destruct (addPending_spec new (pendingForAdd st) (meshes st))
    as (added & Hadd & Hall).
  { rewrite Hq. by apply pendingOf_in_range. }
  exists st, added. eexists. split_and!; [done|done| |done|].
  - unfold alignMeshes. rewrite nonempty_length by done.
    fold N0 N1 match_. rewrite Hst. simpl. rewrite Hadd. simpl. done.
  - intros c Hc Hrow Hcol.
    assert (c.2 ∈ pendingForAdd st) as (p & Hp)%list_elem_of_lookup.
    { rewrite Hq. unfold pendingOf. apply list_elem_of_omap.
      exists c. split; [done|].
      destruct (classify_spec N0 N1 c) as [H|[H|[H|H]]];
        destruct H as (Hr & Hcc & ->); (done || lia). }
    destruct (Forall2_lookup_l _ _ _ _ _ Hall Hp) as (fresh & Hfresh & Hn).
    exists p, fresh. split_and!; [done|done| |by rewrite Hn].
    rewrite lookup_app_r; rewrite Hlen; [|lia].
    by replace (length (currMeshes this) + p - length (currMeshes this))%nat
      with p by lia.
Qed.

(** ** The displacement bound and the debug flag *)

(** C6.  A call does not look at [maxDist]: with any two values of it
    the call returns the same registry and the same report. *)
Theorem alignMeshes_ignores_maxDist (this : Tracker) (new : list Mesh)
    (d1 d2 : spec_float) :
  alignMeshes this new d1 = alignMeshes this new d2.
Proof. reflexivity. Qed.

Lemma trackMotion_flag (b : bool) (reg : list Mesh) (im : Frame) :
  fst <$> trackMotion {| debug := b; currMeshes := reg |} im =
    (fun p => {| debug := b; currMeshes := currMeshes p.1 |})
      <$> trackMotion {| debug := false; currMeshes := reg |} im.
Proof.
  unfold trackMotion.
  pose proof (alignMeshes_flag b reg
                (split (MeshObject_of (cornersS im ++ cornersV im))
                       (F64.of_Z (frameRows im)))
                (F64.mul (F64.of_Z (frameRows im)) c0_833)) as H.
  destruct (alignMeshes {| debug := b; currMeshes := reg |} _ _) as [[t o]|];
    destruct (alignMeshes {| debug := false; currMeshes := reg |} _ _) as [[t' o']|];
    simpl in *; congruence.
Qed.

Lemma trackMotion_keeps_flag (this this' : Tracker) (im : Frame) (out : string) :
  trackMotion this im = Some (this', out) -> debug this' = debug this.
Proof.
  destruct this as [b reg]. intros Hrun.
  pose proof (trackMotion_flag b reg im) as H. rewrite Hrun in H.
  destruct (trackMotion {| debug := false; currMeshes := reg |} im) as [[t o]|];
    simpl in H; [|done].
  by injection H as ->.
Qed.

Lemma run_flag (b : bool) (frames : list Frame) :
  forall reg : list Mesh,
  fst <$> run {| debug := b; currMeshes := reg |} frames =
    (fun p => {| debug := b; currMeshes := currMeshes p.1 |})
      <$> run {| debug := false; currMeshes := reg |} frames.
Proof.
  induction frames as [|im frames IH]; intros reg; simpl; [done|].
  pose proof (trackMotion_flag b reg im) as H.
  destruct (trackMotion {| debug := false; currMeshes := reg |} im)
    as [[[b' reg'] o']|] eqn:Hoff;
    destruct (trackMotion {| debug := b; currMeshes := reg |} im) as [[t o]|];
    simpl in *; try congruence.
  injection H as ->.
  apply trackMotion_keeps_flag in Hoff. simpl in Hoff. subst b'.
  specialize (IH reg').
  destruct (run {| debug := b; currMeshes := reg' |} frames) as [[t o1]|];
    destruct (run {| debug := false; currMeshes := reg' |} frames) as [[t' o1']|];
    simpl in *; congruence.
Qed.

(** C7.  The debug flag only decides what is reported: with the flag
    on and with it off, a call goes through the same couples, takes
    the same branches and leaves the same registry, and so does a
    whole run of the tracker over any frames; the flag itself is
    kept. *)
Theorem debug_only_reports (reg new : list Mesh) (maxDist : spec_float)
    (frames : list Frame) :
  let on := {| debug := true; currMeshes := reg |} in
  let off := {| debug := false; currMeshes := reg |} in
  couples on new = couples off new /\
  verdicts on new = verdicts off new /\
  registryAfter (alignMeshes on new maxDist)
  = registryAfter (alignMeshes off new maxDist) /\
  registryAfter (run on frames) = registryAfter (run off frames) /\
  (debug ∘ fst) <$> alignMeshes on new maxDist
  = (fun _ => true) <$> alignMeshes off new maxDist.
Proof.
  intros on off. split_and!; [done|done|..].
  - pose proof (alignMeshes_flag true reg new maxDist) as H. fold on off in H.
    unfold registryAfter.
    destruct (alignMeshes on new maxDist) as [[t o]|];
      destruct (alignMeshes off new maxDist) as [[t' o']|];
      simpl in *; try done. by injection H as ->.
  - pose proof (run_flag true frames reg) as H. fold on off in H.
    unfold registryAfter.
    destruct (run on frames) as [[t o]|];
      destruct (run off frames) as [[t' o']|];
      simpl in *; try done. by injection H as ->.
  - pose proof (alignMeshes_flag true reg new maxDist) as H. fold on off in H.
    destruct (alignMeshes on new maxDist) as [[t o]|];
      destruct (alignMeshes off new maxDist) as [[t' o']|];
      simpl in *; try done. by injection H as ->.
Qed.

(** ** The cost matrix handed to the solver *)

(** C2, as the code has it.  The cost matrix is N x N with N the
    larger of the two sizes; the cell of an old mesh (row) and a new
    mesh (column) holds the distance of their centroids cast to
    [float], every other cell holds [numeric_limits<float>::max()].
    That sentinel is strictly above the stored distance of every pair
    of centroids whose distance is finite and of magnitude below 2^127,
    half the range of [float]; beyond that a stored distance may reach
    the sentinel or be infinite, and is never a finite value above
    it. *)
Theorem costMatrix_cells (curr new : list Mesh) :
  let N0 := Z.of_nat (length curr) in
  let N1 := Z.of_nat (length new) in
  let N := Z.max N0 N1 in
  let m := costMatrix curr new in
  square N m /\
  (forall (i j : nat) (old fresh : Mesh),
      curr !! i = Some old -> new !! j = Some fresh ->
      Mat_at m (Z.of_nat i) (Z.of_nat j)
      = Some (float_of_double (_dist (centroid old) (centroid fresh))) /\
      (finiteBelow 127 (_dist (centroid old) (centroid fresh)) = true ->
       SFltb (float_of_double (_dist (centroid old) (centroid fresh))) F32.max
       = true) /\
      withinMax (float_of_double (_dist (centroid old) (centroid fresh)))) /\
  (forall r c : Z,
      0 <= r < N -> 0 <= c < N -> N0 <= r \/ N1 <= c ->
      Mat_at m r c = Some F32.max).
Proof.
  intros N0 N1 N m. split_and!.
  - apply costMatrix_square.
  - intros i j old fresh Hold Hfresh.
    split_and!; [|apply float_of_double_below_max|apply float_of_double_withinMax].
    unfold m. rewrite costMatrix_at, !vec_at_of_nat, Hold, Hfresh. simpl.
    apply lookup_lt_Some in Hold, Hfresh.
    case_decide; [done|lia].
  - intros r c Hr Hc Hpad. unfold m. rewrite costMatrix_at. simpl.
    case_decide; [|lia]. f_equal.
    destruct (vec_at curr r) as [old|] eqn:Hold; [|done].
    destruct (vec_at new c) as [fresh|] eqn:Hfresh; [|done].
    apply vec_at_Some in Hold as [_ Hold%lookup_lt_Some].
    apply vec_at_Some in Hfresh as [_ Hfresh%lookup_lt_Some].
    lia.
Qed.

(** ** Zero displacement *)

Lemma pow2_pos (e : Z) : (0 < pow2 e)%Q.
Proof. destruct e; unfold pow2, Qlt; simpl; lia. Qed.

Lemma weight_pos (v : spec_float) : SFltb F32.zero v = true -> (0 < weight v)%Q.
Proof.
  destruct v as [s|s| |s m e]; try destruct s; intros H; try discriminate H.
  - apply (pow2_pos 128).
  - unfold weight. apply Qmult_lt_0_compat; [|apply pow2_pos]. unfold Qlt. simpl. lia.
Qed.

Lemma weight_zero (v : spec_float) : SFeqb v F32.zero = true -> weight v = 0%Q.
Proof. destruct v as [s|s| |s m e]; unfold SFeqb; simpl; try done; by destruct s. Qed.

(** The cost of a cell of a matrix with a zero diagonal only. *)
Lemma zeroDiagonalOnly_cell (N : Z) (m : Mat) (r c : Z) :
  zeroDiagonalOnly N m = true -> 0 <= r < N -> 0 <= c < N ->
  exists v, Mat_at m r c = Some v /\
            (r = c -> weight v = 0%Q) /\ (r <> c -> (0 < weight v)%Q).
Proof.
  unfold zeroDiagonalOnly. intros H Hr Hc.
  rewrite forallb_forall in H. specialize (H r).
  rewrite <- list_elem_of_In, elem_of_seqZ in H. specialize (H ltac:(lia)).
  rewrite forallb_forall in H. specialize (H c).
  rewrite <- list_elem_of_In, elem_of_seqZ in H. specialize (H ltac:(lia)).
  destruct (Mat_at m r c) as [v|]; [|done]. exists v. split; [done|].
  destruct (Z.eqb_spec r c); split; intros; try done.
  - by apply weight_zero.
  - by apply weight_pos.
Qed.

Lemma totalCost_diagonal (N : Z) (m : Mat) :
  zeroDiagonalOnly N m = true -> (totalCost m (diagonal N) == 0)%Q.
Proof.
  intros H. unfold diagonal.
  assert (Forall (fun k => 0 <= k < N) (seqZ 0 N)) as Hl.
  { apply Forall_forall. intros k Hk%elem_of_seqZ. lia. }
  induction Hl as [|k l Hk _ IH]; simpl; [reflexivity|].
  destruct (zeroDiagonalOnly_cell N m k k H Hk Hk) as (v & -> & Hz & _).
  simpl. rewrite Hz by done. rewrite IH. reflexivity.
Qed.

Lemma totalCost_nonneg (N : Z) (m : Mat) (l : list (Z * Z)) :
  zeroDiagonalOnly N m = true ->
  Forall (fun c => (0 <= c.1 < N) /\ (0 <= c.2 < N)) l ->
  (0 <= totalCost m l)%Q.
Proof.
  intros H Hl. induction Hl as [|c l [Hr Hc] _ IH]; simpl; [apply Qle_refl|].
  destruct (zeroDiagonalOnly_cell N m c.1 c.2 H Hr Hc) as (v & -> & Hz & Hp).
  simpl. destruct (decide (c.1 = c.2)) as [E|E].
  - rewrite Hz by done. lra.
  - specialize (Hp E). lra.
Qed.

(** An assignment that costs no more than the diagonal of such a
    matrix lies on the diagonal. *)
Lemma cheap_is_diagonal (N : Z) (m : Mat) (l : list (Z * Z)) :
  zeroDiagonalOnly N m = true ->
  Forall (fun c => (0 <= c.1 < N) /\ (0 <= c.2 < N)) l ->
  (totalCost m l <= 0)%Q ->
  Forall (fun c => c.1 = c.2) l.
Proof.
  intros H Hl. induction Hl as [|c l [Hr Hc] Hl IH]; simpl; intros Hcost;
    [constructor|].
  pose proof (totalCost_nonneg N m l H Hl) as Hrest.
  destruct (zeroDiagonalOnly_cell N m c.1 c.2 H Hr Hc) as (v & Hv & Hz & Hp).
  rewrite Hv in Hcost. simpl in Hcost.
  destruct (decide (c.1 = c.2)) as [E|E].
  - constructor; [done|]. apply IH. rewrite Hz in Hcost by done. lra.
  - specialize (Hp E). lra.
Qed.

Lemma pendingOf_real_rows (N0 N1 : Z) (l : list (Z * Z)) :
  Forall (fun c => c.1 < N0) l -> pendingOf N0 N1 l = [].
Proof.
  induction 1 as [|c l Hc _ IH]; [done|].
  rewrite pendingOf_cons, IH.
  destruct (classify_spec N0 N1 c) as [H|[H|[H|H]]];
    destruct H as (Hr & Hcc & ->); (done || lia).
Qed.

(** C8, as the solver's contract allows it.  Let the registry and
    [newMeshes] have the same centroids, slot by slot, every mesh at
    distance zero from its counterpart and at a distance above zero
    from every other mesh.  If the solver returns a perfect matching
    that costs no more than the diagonal pairing, then the matching is
    the diagonal: the call updates every entry with its own
    counterpart, marks no entry absent, appends nothing and leaves the
    size of the registry as it was. *)
Theorem zero_displacement_matches_itself (this : Tracker) (new : list Mesh)
    (maxDist : spec_float) :
  let N := Z.of_nat (length (currMeshes this)) in
  let m := costMatrix (currMeshes this) new in
  currMeshes this <> [] ->
  map centroid (currMeshes this) = map centroid new ->
  zeroDiagonalOnly N m = true ->
  perfect_matching N (optimiseMinima m) = true ->
  Qle_bool (totalCost m (optimiseMinima m)) (totalCost m (diagonal N)) = true ->
  exists out,
    alignMeshes this new maxDist
    = Some ({| debug := debug this;
               currMeshes := zip_with update (currMeshes this) new |}, out) /\
    Forall (fun c => c.1 = c.2) (couples this new) /\
    Forall (fun v => exists k, v = Updated k k) (verdicts this new) /\
    appended this new = [] /\
    length (zip_with update (currMeshes this) new) = length (currMeshes this).
Proof.
  intros N m Hne Hcent Hzero Hp Hcost.
  assert (length new = length (currMeshes this)) as Hlen
    by (rewrite <- (length_map centroid new), <- Hcent; apply length_map).
  assert (couples this new = optimiseMinima m) as Hc
    by (unfold couples; by rewrite nonempty_length).
  pose proof (perfect_inSquare _ _ Hp) as Hsq.
  assert (Forall (fun c => c.1 = c.2) (optimiseMinima m)) as Hdiag.
  { apply (cheap_is_diagonal N m); [done..|].
    apply Qle_bool_iff in Hcost. rewrite totalCost_diagonal in Hcost by done.
    done. }
  pose proof (perfect_nonnegative _ _ Hp) as Hnn. rewrite <- Hc in Hnn.
  destruct (alignMeshes_spec this new maxDist Hnn) as (out & added & Hrun & Hadded).
  assert (appended this new = []) as Happ.
  { unfold appended. rewrite nonempty_length, Hc by done.
    apply pendingOf_real_rows. eapply Forall_impl; [exact Hsq|].
    intros c [Hr _]. exact (proj2 Hr). }
  rewrite Happ in Hadded. apply Forall2_nil_inv_l in Hadded as ->.
  rewrite app_nil_r in Hrun.
  exists out. split_and!.
  - rewrite Hrun. do 3 f_equal. apply list_eq. intros i.
    rewrite list_lookup_imap, lookup_zip_with.
    destruct (currMeshes this !! i) as [old|] eqn:Hold; [|done]. simpl.
    assert (Z.of_nat i < N) as Hi by (apply lookup_lt_Some in Hold; lia).
    destruct (lookup_lt_is_Some_2 new i) as [fresh Hfresh]; [lia|].
    rewrite Hfresh. simpl. f_equal.
    pose proof (perfect_row _ _ (Z.of_nat i) Hp ltac:(lia)) as Hrow.
    destruct (tally_one_elem _ _ Hrow) as (c & Hin & Hc1%Z.eqb_eq).
    unfold slotAfter. rewrite Hc.
    rewrite (fold_slotEffect_unique _ _ _ _ _ c) by done.
    rewrite Forall_forall in Hdiag. specialize (Hdiag _ Hin).
    unfold slotEffect, classify. fold N. rewrite Hlen. fold N.
    destruct (Z.geb_spec c.1 N); [lia|].
    destruct (Z.geb_spec c.2 N); [lia|]. simpl.
    rewrite Hc1, Z.eqb_refl, <- Hdiag, Hc1, vec_at_of_nat, Hfresh. done.
  - by rewrite Hc.
  - unfold verdicts. rewrite Hc. apply Forall_fmap.
    rewrite Forall_forall in Hsq, Hdiag. apply Forall_forall. intros c Hin.
    specialize (Hsq _ Hin). specialize (Hdiag _ Hin). simpl.
    exists c.1. unfold classify. fold N. rewrite Hlen. fold N.
    destruct (Z.geb_spec c.1 N); [lia|].
    destruct (Z.geb_spec c.2 N); [lia|]. simpl. by rewrite <- Hdiag.
  - done.
  - rewrite length_zip_with. lia.
Qed.

(** ** When a call stays inside its vectors *)

Lemma couple_Some_inv (N0 N1 : Z) (new : list Mesh) (st st' : Coupling) (c : Z * Z) :
  couple N0 N1 new st c = Some st' ->
  (c.1 < N0 -> 0 <= c.1) /\ (c.1 < N0 -> c.2 < N1 -> 0 <= c.2).
Proof.
  unfold couple.
  destruct (classify_spec N0 N1 c) as [H|[H|[H|H]]];
    destruct H as (Hr & Hc & ->); try (intros _; split; intros; lia).
  - destruct (vec_at (meshes st) c.1) as [old|] eqn:Hold; simpl; [|done].
    apply vec_at_Some in Hold as [Hi _]. intros _. split; intros; lia.
  - destruct (vec_at (meshes st) c.1) as [old|] eqn:Hold; simpl; [|done].
    destruct (vec_at new c.2) as [fresh|] eqn:Hfresh; simpl; [|done].
    apply vec_at_Some in Hold as [Hi _]. apply vec_at_Some in Hfresh as [Hj _].
    intros _. split; intros; lia.
Qed.

Lemma coupleAll_Some_inv (N0 N1 : Z) (new : list Mesh) (l : list (Z * Z)) :
  forall st st' : Coupling,
  coupleAll N0 N1 new l st = Some st' ->
  Forall (fun c => (c.1 < N0 -> 0 <= c.1) /\ (c.1 < N0 -> c.2 < N1 -> 0 <= c.2)) l.
Proof.
  induction l as [|c l IH]; intros st st'; simpl; [constructor|].
  destruct (couple N0 N1 new st c) as [st1|] eqn:Hstep; simpl; [|done].
  intros Hrest. constructor; [by eapply couple_Some_inv|by eapply IH].
Qed.

Lemma addPending_Some_inv (new : list Mesh) (pending : list Z) :
  forall curr r : list Mesh,
  addPending new pending curr = Some r -> Forall (fun n => 0 <= n) pending.
Proof.
  induction pending as [|n pending IH]; intros curr r; simpl; [constructor|].
  destruct (vec_at new n) as [m|] eqn:Hm; simpl; [|done].
  apply vec_at_Some in Hm as [Hn _].
  intros Hrest. constructor; [done|by eapply IH].
Qed.

Lemma elem_of_pendingOf (N0 N1 : Z) (l : list (Z * Z)) (c : Z * Z) :
  c ∈ l -> N0 <= c.1 -> c.2 < N1 -> c.2 ∈ pendingOf N0 N1 l.
Proof.
  intros Hc Hrow Hcol. unfold pendingOf. apply list_elem_of_omap.
  exists c. split; [done|].
  destruct (classify_spec N0 N1 c) as [H|[H|[H|H]]];
    destruct H as (Hr & Hcc & ->); (done || lia).
Qed.

Lemma alignMeshes_Some_nonnegative (this this' : Tracker) (new : list Mesh)
    (maxDist : spec_float) (out : string) :
  alignMeshes this new maxDist = Some (this', out) ->
  nonnegative (couples this new) = true.
Proof.
  intros Hrun.
  destruct (decide (currMeshes this = [])) as [Hempty|Hne];
    [by rewrite couples_bootstrap|].
  unfold alignMeshes, couples in *. rewrite nonempty_length in * by done.
  set (N0 := Z.of_nat (length (currMeshes this))) in *.
  set (N1 := Z.of_nat (length new)) in *.
  set (l := optimiseMinima _) in *.
  destruct (coupleAll N0 N1 new l _) as [st|] eqn:Hst; simpl in Hrun; [|done].
  destruct (addPending new _ _) as [curr|] eqn:Hadd; simpl in Hrun; [|done].
  pose proof (coupleAll_Some_inv _ _ _ _ _ _ Hst) as Hin.
  pose proof (addPending_Some_inv _ _ _ _ Hadd) as Hq.
  destruct (coupleAll_spec _ _ _ _ _ _ Hst) as (_ & _ & Hpend).
  simpl in Hpend. rewrite Hpend in Hq.
  rewrite Forall_forall in Hin. rewrite Forall_forall in Hq.
  apply forallb_forall. intros c Hc%list_elem_of_In.
  destruct (Hin c Hc) as [Hrow Hcol].
  assert (0 <= c.1) by (destruct (Z.lt_ge_cases c.1 N0); lia).
  assert (0 <= c.2); [|lia].
  destruct (Z.lt_ge_cases c.2 N1) as [Hlt|]; [|lia].
  destruct (Z.lt_ge_cases c.1 N0) as [|Hge]; [by apply Hcol|].
  apply Hq. by apply elem_of_pendingOf.
Qed.

(** X1.  A call returns exactly when no couple the solver hands back has
    a negative index: an index at or beyond the sizes is read as
    padding, a negative one is used to index a vector. *)
Theorem alignMeshes_defined_iff (this : Tracker) (new : list Mesh)
    (maxDist : spec_float) :
  is_Some (alignMeshes this new maxDist) <-> nonnegative (couples this new) = true.
Proof.
  split.
  - intros [[this' out] Hrun]. by eapply alignMeshes_Some_nonnegative.
  - intros Hnn.
    destruct (alignMeshes_spec this new maxDist Hnn) as (out & added & -> & _).
    done.
Qed.

(** ** Counting the couples of a perfect matching *)

Lemma tally_ext_in {A} (p q : A -> bool) (l : list A) :
  (forall x, x ∈ l -> p x = q x) -> tally p l = tally q l.
Proof.
  induction l as [|x l IH]; intros H; simpl; [done|].
  rewrite (H x) by left. rewrite IH; [done|]. intros y Hy. apply H. by right.
Qed.

Lemma tally_all {A} (p : A -> bool) (l : list A) :
  (forall x, x ∈ l -> p x = true) -> tally p l = length l.
Proof.
  induction l as [|x l IH]; intros H; simpl; [done|].
  rewrite (H x) by left. rewrite IH; [done|]. intros y Hy. apply H. by right.
Qed.

Lemma tally_negb {A} (p : A -> bool) (l : list A) :
  (tally p l + tally (fun x => negb (p x)) l = length l)%nat.
Proof. induction l as [|x l IH]; simpl; [done|]. destruct (p x); simpl; lia. Qed.

(** The rows below [k] occur in [k] couples, and so do the columns. *)
Lemma perfect_rows_below (N : Z) (l : list (Z * Z)) (k : nat) :
  perfect_matching N l = true -> Z.of_nat k <= N ->
  tally (fun c => c.1 <? Z.of_nat k) l = k.
Proof.
  intros Hp. induction k as [|k IH]; intros Hk.
  - apply tally_none. pose proof (perfect_inSquare _ _ Hp) as Hsq.
    eapply Forall_impl; [exact Hsq|]. intros c [Hr _]. apply Z.ltb_ge. simpl. lia.
  - rewrite <- (tally_split (fun c => c.1 <? Z.of_nat k) (fun c => c.1 =? Z.of_nat k)).
    + rewrite IH by lia. rewrite (perfect_row N) by (done || lia). lia.
    + intros c. destruct (Z.ltb_spec c.1 (Z.of_nat k)), (Z.eqb_spec c.1 (Z.of_nat k)),
        (Z.ltb_spec c.1 (Z.of_nat (S k))); (done || lia).
Qed.

Lemma perfect_cols_below (N : Z) (l : list (Z * Z)) (k : nat) :
  perfect_matching N l = true -> Z.of_nat k <= N ->
  tally (fun c => c.2 <? Z.of_nat k) l = k.
Proof.
  intros Hp. induction k as [|k IH]; intros Hk.
  - apply tally_none. pose proof (perfect_inSquare _ _ Hp) as Hsq.
    eapply Forall_impl; [exact Hsq|]. intros c [_ Hc]. apply Z.ltb_ge. simpl. lia.
  - rewrite <- (tally_split (fun c => c.2 <? Z.of_nat k) (fun c => c.2 =? Z.of_nat k)).
    + rewrite IH by lia. rewrite (perfect_col N) by (done || lia). lia.
    + intros c. destruct (Z.ltb_spec c.2 (Z.of_nat k)), (Z.eqb_spec c.2 (Z.of_nat k)),
        (Z.ltb_spec c.2 (Z.of_nat (S k))); (done || lia).
Qed.

Lemma perfect_length (n : nat) (l : list (Z * Z)) :
  perfect_matching (Z.of_nat n) l = true -> length l = n.
Proof.
  intros Hp.
  transitivity (tally (fun c : Z * Z => c.1 <? Z.of_nat n) l);
    [|apply (perfect_rows_below _ l n Hp); lia].
  symmetry. apply tally_all. intros c Hc.
  pose proof (perfect_inSquare _ _ Hp) as Hsq. rewrite Forall_forall in Hsq.
  apply Z.ltb_lt. by apply Hsq.
Qed.

(** How many couples of a perfect matching over the padded square are
    of each kind. *)
Lemma perfect_kinds (n0 n1 : nat) (l : list (Z * Z)) :
  let N0 := Z.of_nat n0 in
  let N1 := Z.of_nat n1 in
  perfect_matching (Z.max N0 N1) l = true ->
  tally isIgnored (map (classify N0 N1) l) = O /\
  tally isUpdated (map (classify N0 N1) l) = Nat.min n0 n1 /\
  tally isAbsent (map (classify N0 N1) l) = (n0 - n1)%nat /\
  tally isFresh (map (classify N0 N1) l) = (n1 - n0)%nat.
Proof.
  intros N0 N1 Hp. rewrite !tally_map.
  pose proof (perfect_inSquare _ _ Hp) as Hsq. rewrite Forall_forall in Hsq.
  destruct (Nat.le_ge_cases n0 n1) as [Hle|Hle].
  - (* every column is real *)
    rewrite Z.max_r in Hp, Hsq by lia.
    pose proof (perfect_length n1 l Hp) as Hlen.
    pose proof (perfect_rows_below _ l n0 Hp ltac:(lia)) as Hrows.
    pose proof (tally_negb (fun c : Z * Z => c.1 <? N0) l) as Hneg.
    assert (forall c, c ∈ l ->
              classify N0 N1 c
              = if c.1 <? N0 then Updated c.1 c.2 else FreshNew c.2) as Hcl.
    { intros c Hc. specialize (Hsq c Hc).
      destruct (classify_spec N0 N1 c) as [H|[H|[H|H]]];
        destruct H as (Hr & Hcc & ->);
        destruct (Z.ltb_spec c.1 N0); (done || lia). }
    split_and!.
    + apply tally_none, Forall_forall. intros c Hc. rewrite Hcl by done.
      by destruct (c.1 <? N0).
    + rewrite (tally_ext_in _ (fun c => c.1 <? N0)); [fold N0 in Hrows; lia|].
      intros c Hc. rewrite Hcl by done. by destruct (c.1 <? N0).
    + replace (n0 - n1)%nat with O by lia.
      apply tally_none, Forall_forall. intros c Hc. rewrite Hcl by done.
      by destruct (c.1 <? N0).
    + rewrite (tally_ext_in _ (fun c => negb (c.1 <? N0))); [fold N0 in Hrows; lia|].
      intros c Hc. rewrite Hcl by done. by destruct (c.1 <? N0).
  - (* every row is real *)
    rewrite Z.max_l in Hp, Hsq by lia.
    pose proof (perfect_length n0 l Hp) as Hlen.
    pose proof (perfect_cols_below _ l n1 Hp ltac:(lia)) as Hcols.
    pose proof (tally_negb (fun c : Z * Z => c.2 <? N1) l) as Hneg.
    assert (forall c, c ∈ l ->
              classify N0 N1 c
              = if c.2 <? N1 then Updated c.1 c.2 else AbsentOld c.1) as Hcl.
    { intros c Hc. specialize (Hsq c Hc).
      destruct (classify_spec N0 N1 c) as [H|[H|[H|H]]];
        destruct H as (Hr & Hcc & ->);
        destruct (Z.ltb_spec c.2 N1); (done || lia). }
    split_and!.
    + apply tally_none, Forall_forall. intros c Hc. rewrite Hcl by done.
      by destruct (c.2 <? N1).
    + rewrite (tally_ext_in _ (fun c => c.2 <? N1)); [fold N1 in Hcols; lia|].
      intros c Hc. rewrite Hcl by done. by destruct (c.2 <? N1).
    + rewrite (tally_ext_in _ (fun c => negb (c.2 <? N1))); [fold N1 in Hcols; lia|].
      intros c Hc. rewrite Hcl by done. by destruct (c.2 <? N1).
    + replace (n1 - n0)%nat with O by lia.
      apply tally_none, Forall_forall. intros c Hc. rewrite Hcl by done.
      by destruct (c.2 <? N1).
Qed.

Lemma length_pendingOf (N0 N1 : Z) (l : list (Z * Z)) :
  length (pendingOf N0 N1 l) = tally isFresh (map (classify N0 N1) l).
Proof.
  induction l as [|c l IH]; [done|].
  rewrite pendingOf_cons. simpl map.
  destruct (classify N0 N1 c); simpl; by rewrite IH.
Qed.

(** What the loop counts: the verdicts of each kind. *)
Lemma coupleAll_counters (N0 N1 : Z) (new : list Mesh) (l : list (Z * Z)) :
  forall st st' : Coupling,
  coupleAll N0 N1 new l st = Some st' ->
  nUpdated st' = nUpdated st + Z.of_nat (tally isUpdated (map (classify N0 N1) l)) /\
  nAbsentOld st' = nAbsentOld st + Z.of_nat (tally isAbsent (map (classify N0 N1) l)) /\
  nFreshNew st' = nFreshNew st + Z.of_nat (tally isFresh (map (classify N0 N1) l)).
Proof.
  induction l as [|c l IH]; intros st st'; simpl.
  - intros [= <-]. lia.
  - destruct (couple N0 N1 new st c) as [st1|] eqn:Hstep; simpl; [|done].
    intros Hrest. destruct (IH _ _ Hrest) as (Hu & Ha & Hf).
    rewrite Hu, Ha, Hf. clear IH Hrest Hu Ha Hf.
    unfold couple in Hstep.
    destruct (classify N0 N1 c) as [|i1|i0|i0 i1]; simpl in *.
    + injection Hstep as <-. lia.
    + injection Hstep as <-. simpl. lia.
    + destruct (vec_at (meshes st) i0); simpl in Hstep; [|done].
      injection Hstep as <-. simpl. lia.
    + destruct (vec_at (meshes st) i0); simpl in Hstep; [|done].
      destruct (vec_at new i1); simpl in Hstep; [|done].
      injection Hstep as <-. simpl. lia.
Qed.

(** ** The outcome of a call with a perfect matching *)

Lemma verdicts_bootstrap (this : Tracker) (new : list Mesh) :
  currMeshes this = [] -> verdicts this new = [].
Proof. intros H. unfold verdicts. by rewrite couples_bootstrap. Qed.

Lemma verdicts_kinds (this : Tracker) (new : list Mesh) :
  (currMeshes this <> [] ->
   perfect_matching
     (Z.max (Z.of_nat (length (currMeshes this))) (Z.of_nat (length new)))
     (optimiseMinima (costMatrix (currMeshes this) new)) = true) ->
  tally isIgnored (verdicts this new) = O /\
  tally isUpdated (verdicts this new)
  = Nat.min (length (currMeshes this)) (length new) /\
  tally isAbsent (verdicts this new) = (length (currMeshes this) - length new)%nat /\
  tally isFresh (verdicts this new)
  = (if (length (currMeshes this) =? 0)%nat then 0
     else length new - length (currMeshes this))%nat.
Proof.
  intros Hsolver. destruct (decide (currMeshes this = [])) as [Hempty|Hne].
  - rewrite verdicts_bootstrap, Hempty by done. done.
  - rewrite nonempty_length by done. unfold verdicts, couples.
    rewrite nonempty_length by done. apply perfect_kinds. auto.
Qed.

(** X2.  With a perfect matching, no couple of a call pairs a padding
    row with a padding column, and a call never both marks an entry
    absent and queues a new mesh: with at least as many new meshes as
    entries no entry is absent, with at most as many nothing is
    queued and nothing appended. *)
Theorem no_absent_with_fresh (this : Tracker) (new : list Mesh) :
  let n0 := length (currMeshes this) in
  let n1 := length new in
  (currMeshes this <> [] ->
   perfect_matching (Z.max (Z.of_nat n0) (Z.of_nat n1))
     (optimiseMinima (costMatrix (currMeshes this) new)) = true) ->
  Forall (fun v => isIgnored v = false) (verdicts this new) /\
  (n0 <= n1 -> Forall (fun v => isAbsent v = false) (verdicts this new))%nat /\
  (n1 <= n0 -> Forall (fun v => isFresh v = false) (verdicts this new)
               /\ appended this new = [])%nat.
Proof.
  intros n0 n1 Hsolver.
  destruct (verdicts_kinds this new Hsolver) as (Hi & _ & Ha & Hf).
  fold n0 n1 in Ha, Hf. split_and!.
  - by apply tally_none.
  - intros Hle. apply tally_none. lia.
  - intros Hle. split.
    + apply tally_none. rewrite Hf. destruct (n0 =? 0)%nat; lia.
    + unfold appended. fold n0 n1. destruct (n0 =? 0)%nat eqn:E.
      * apply Nat.eqb_eq in E. by replace n1 with O by lia.
      * apply length_zero_iff_nil. unfold couples. fold n0. rewrite E.
        rewrite length_pendingOf.
        unfold verdicts, couples in Hf. fold n0 n1 in Hf. rewrite E in Hf. lia.
Qed.

(** The size of the registry after a call with a perfect matching. *)
Lemma alignMeshes_size_perfect (this : Tracker) (new : list Mesh)
    (maxDist : spec_float) :
  (currMeshes this <> [] ->
   perfect_matching
     (Z.max (Z.of_nat (length (currMeshes this))) (Z.of_nat (length new)))
     (optimiseMinima (costMatrix (currMeshes this) new)) = true) ->
  exists this' out,
    alignMeshes this new maxDist = Some (this', out) /\
    debug this' = debug this /\
    length (currMeshes this') = Nat.max (length (currMeshes this)) (length new).
Proof.
  intros Hsolver. destruct (decide (currMeshes this = [])) as [Hempty|Hne].
  - rewrite alignMeshes_bootstrap by done. eexists _, _. split; [done|].
    simpl. by rewrite Hempty.
  - specialize (Hsolver Hne).
    assert (couples this new = optimiseMinima (costMatrix (currMeshes this) new))
      as Hc by (unfold couples; by rewrite nonempty_length).
    pose proof (perfect_nonnegative _ _ Hsolver) as Hnn. rewrite <- Hc in Hnn.
    destruct (alignMeshes_spec this new maxDist Hnn) as (out & added & Hrun & Hadded).
    eexists _, out. split; [exact Hrun|]. simpl. split; [done|].
    rewrite length_app, length_imap, <- (Forall2_length _ _ _ Hadded).
    unfold appended. rewrite nonempty_length, Hc, length_pendingOf by done.
    destruct (perfect_kinds _ _ _ Hsolver) as (_ & _ & _ & Hf). lia.
Qed.

(** X3.  With a perfect matching a call leaves a registry of the larger
    of the two sizes: it grows by the number of new meshes in excess of
    the tracked ones, and not at all when there is none in excess. *)
Theorem alignMeshes_leaves_larger_size (this : Tracker) (new : list Mesh)
    (maxDist : spec_float) :
  let n0 := length (currMeshes this) in
  let n1 := length new in
  (currMeshes this <> [] ->
   perfect_matching (Z.max (Z.of_nat n0) (Z.of_nat n1))
     (optimiseMinima (costMatrix (currMeshes this) new)) = true) ->
  exists this' out,
    alignMeshes this new maxDist = Some (this', out) /\
    length (currMeshes this') = Nat.max n0 n1 /\
    length (currMeshes this') = (n0 + (n1 - n0))%nat /\
    length (appended this new) = (n1 - n0)%nat.
Proof.
  intros n0 n1 Hsolver.
  destruct (alignMeshes_size_perfect this new maxDist Hsolver)
    as (this' & out & Hrun & _ & Hsize).
  exists this', out. fold n0 n1 in Hsize. split_and!; [done|done|lia|].
  unfold appended. fold n0 n1. destruct (n0 =? 0)%nat eqn:E.
  - rewrite length_seqZ. apply Nat.eqb_eq in E. lia.
  - destruct (verdicts_kinds this new Hsolver) as (_ & _ & _ & Hf).
    fold n0 n1 in Hf. rewrite E in Hf.
    rewrite length_pendingOf. exact Hf.
Qed.

Lemma append_assoc (a b c : string) : ((a ++ b) ++ c = a ++ b ++ c)%string.
Proof. induction a as [|x a IH]; simpl; [done|]. by rewrite IH. Qed.

(** X4.  With the debug flag on, a non-empty registry and a perfect
    matching, a call writes the sizes, the size of the matrix and the
    three counts: as many updated meshes as the smaller size, as many
    absent ones as tracked meshes in excess, as many new ones as new
    meshes in excess. *)
Theorem debug_report (reg new : list Mesh) (maxDist : spec_float) :
  let N0 := Z.of_nat (length reg) in
  let N1 := Z.of_nat (length new) in
  reg <> [] ->
  perfect_matching (Z.max N0 N1) (optimiseMinima (costMatrix reg new)) = true ->
  snd <$> alignMeshes {| debug := true; currMeshes := reg |} new maxDist
  = Some ("...Aligning mesh: " ++ show N0 ++ " --> " ++ show N1 ++ endl ++
          "[M] " ++ show (Z.max N0 N1) ++ " x " ++ show (Z.max N0 N1) ++ endl ++
          "... " ++ show (Z.min N0 N1) ++ " mesh(es) updated" ++ endl ++
          "... " ++ show (N0 - Z.min N0 N1) ++ " mesh(es) absent" ++ endl ++
          "... " ++ show (N1 - Z.min N0 N1) ++ " new mesh(es)" ++ endl)%string.
Proof.
  intros N0 N1 Hne Hp.
  pose proof (perfect_nonnegative _ _ Hp) as Hnn.
  destruct (coupleAll_defined N0 N1 new (optimiseMinima (costMatrix reg new))
              (startCoupling reg)) as [st Hst]; [done..|].
  destruct (coupleAll_spec _ _ _ _ _ _ Hst) as (_ & _ & Hq).
  destruct (addPending_spec new (pendingForAdd st) (meshes st))
    as (added & Hadd & _).
  { rewrite Hq. by apply pendingOf_in_range. }
  assert (alignMeshes {| debug := true; currMeshes := reg |} new maxDist
          = Some ({| debug := true; currMeshes := meshes st ++ added |},
                  (logAligning N0 N1 ++ logMatrix (Z.max N0 N1) ++ logCounts st)%string))
    as ->.
  { unfold alignMeshes.
    change (currMeshes {| debug := true; currMeshes := reg |}) with reg.
    rewrite nonempty_length by done. fold N0 N1. rewrite Hst.
    change (addPending new (pendingForAdd st) (meshes st)
              ≫= (fun curr => Some ({| debug := true; currMeshes := curr |},
                       (logAligning N0 N1 ++ logMatrix (Z.max N0 N1) ++ logCounts st)%string))
            = Some ({| debug := true; currMeshes := meshes st ++ added |},
                  (logAligning N0 N1 ++ logMatrix (Z.max N0 N1) ++ logCounts st)%string)).
    by rewrite Hadd. }
  destruct (coupleAll_counters _ _ _ _ _ _ Hst) as (Hu & Ha & Hf).
  destruct (perfect_kinds _ _ _ Hp) as (_ & Ku & Ka & Kf).
  fold N0 N1 in Ku, Ka, Kf. rewrite Ku in Hu. rewrite Ka in Ha. rewrite Kf in Hf.
  change (nUpdated (startCoupling reg)) with 0 in Hu.
  change (nAbsentOld (startCoupling reg)) with 0 in Ha.
  change (nFreshNew (startCoupling reg)) with 0 in Hf.
  match goal with
  | |- _ = Some ?r =>
      change (Some (logAligning N0 N1 ++ logMatrix (Z.max N0 N1) ++ logCounts st)%string
              = Some r)
  end.
  f_equal. unfold logAligning, logMatrix, logCounts.
  replace (nUpdated st) with (Z.min N0 N1) by lia.
  replace (nAbsentOld st) with (N0 - Z.min N0 N1) by lia.
  replace (nFreshNew st) with (N1 - Z.min N0 N1) by lia.
  rewrite !append_assoc. reflexivity.
Qed.

Lemma kinds_partition (vs : list Verdict) :
  (tally isIgnored vs + tally isUpdated vs + tally isAbsent vs + tally isFresh vs
   = length vs)%nat.
Proof. induction vs as [|v vs IH]; simpl; [done|]. destruct v; simpl; lia. Qed.

(** X5.  Whatever the solver returns within the vectors, the three
    counts of a call and the couples it ignores add up to the number of
    couples, and the count of new meshes is the number of entries by
    which the registry grows. *)
Theorem counts_account_for_couples (this : Tracker) (new : list Mesh)
    (maxDist : spec_float) :
  let N0 := Z.of_nat (length (currMeshes this)) in
  let N1 := Z.of_nat (length new) in
  let match_ := optimiseMinima (costMatrix (currMeshes this) new) in
  currMeshes this <> [] ->
  nonnegative match_ = true ->
  exists st this' out,
    coupleAll N0 N1 new match_ (startCoupling (currMeshes this)) = Some st /\
    alignMeshes this new maxDist = Some (this', out) /\
    nUpdated st + nAbsentOld st + nFreshNew st
    + Z.of_nat (tally isIgnored (map (classify N0 N1) match_))
    = Z.of_nat (length match_) /\
    0 <= nUpdated st /\ 0 <= nAbsentOld st /\ 0 <= nFreshNew st /\
    Z.of_nat (length (currMeshes this')) = N0 + nFreshNew st.
Proof.
  intros N0 N1 match_ Hne Hnn.
  destruct (coupleAll_defined N0 N1 new match_ (startCoupling (currMeshes this)))
    as [st Hst]; [done..|].
  destruct (coupleAll_spec _ _ _ _ _ _ Hst) as (Hlen & _ & Hq).
  simpl in Hlen, Hq.
  destruct (addPending_spec new (pendingForAdd st) (meshes st))
    as (added & Hadd & Hall).
  { rewrite Hq. by apply pendingOf_in_range. }
  destruct (coupleAll_counters _ _ _ _ _ _ Hst) as (Hu & Ha & Hf). simpl in Hu, Ha, Hf.
  pose proof (kinds_partition (map (classify N0 N1) match_)) as Hpart.
  rewrite length_map in Hpart.
  exists st. eexists _, _. split_and!; [done| |lia..|].
  - unfold alignMeshes. rewrite nonempty_length by done.
    fold N0 N1 match_. rewrite Hst. simpl. rewrite Hadd. simpl. done.
  - simpl. rewrite length_app, Hlen, <- (Forall2_length _ _ _ Hall), Hq.
    rewrite length_pendingOf. lia.
Qed.

(** ** The order of the couples *)

Lemma tally_Permutation {A} (p : A -> bool) (l l' : list A) :
  l ≡ₚ l' -> tally p l = tally p l'.
Proof.
  induction 1 as [|x l l' _ IH|x y l|l l' l'' _ IH1 _ IH2]; simpl;
    [done|by rewrite IH|lia|congruence].
Qed.

Lemma perfect_matching_Permutation (N : Z) (l l' : list (Z * Z)) :
  l ≡ₚ l' -> perfect_matching N l = true -> perfect_matching N l' = true.
Proof.
  intros Hperm. unfold perfect_matching. intros [Hsq Hall]%andb_prop.
  apply andb_true_intro. split.
  - rewrite forallb_forall in Hsq. apply forallb_forall. intros c Hc.
    apply Hsq. eapply Permutation_in; [symmetry; exact Hperm|exact Hc].
  - rewrite forallb_forall in Hall. apply forallb_forall. intros k Hk.
    rewrite <- !(tally_Permutation _ _ _ Hperm). by apply Hall.
Qed.

(** X6.  The coupling loop does not depend on the order in which a
    perfect matching lists its couples: in any other order it leaves the
    same meshes in the registry and the same counts, and queues the same
    new meshes, in the order of the list. *)
Theorem coupleAll_any_order (new : list Mesh) (l l' : list (Z * Z)) (st : Coupling) :
  let N0 := Z.of_nat (length (meshes st)) in
  let N1 := Z.of_nat (length new) in
  l ≡ₚ l' ->
  perfect_matching (Z.max N0 N1) l = true ->
  exists st1 st2,
    coupleAll N0 N1 new l st = Some st1 /\
    coupleAll N0 N1 new l' st = Some st2 /\
    meshes st1 = meshes st2 /\
    nUpdated st1 = nUpdated st2 /\
    nAbsentOld st1 = nAbsentOld st2 /\
    nFreshNew st1 = nFreshNew st2 /\
    pendingForAdd st1 = pendingForAdd st ++ pendingOf N0 N1 l /\
    pendingForAdd st2 = pendingForAdd st ++ pendingOf N0 N1 l' /\
    pendingForAdd st1 ≡ₚ pendingForAdd st2.
Proof.
  intros N0 N1 Hperm Hp.
  pose proof (perfect_matching_Permutation _ _ _ Hperm Hp) as Hp'.
  destruct (coupleAll_defined N0 N1 new l st) as [st1 H1];
    [by eapply perfect_nonnegative|done..|].
  destruct (coupleAll_defined N0 N1 new l' st) as [st2 H2];
    [by eapply perfect_nonnegative|done..|].
  destruct (coupleAll_spec _ _ _ _ _ _ H1) as (Hlen1 & Hat1 & Hq1).
  destruct (coupleAll_spec _ _ _ _ _ _ H2) as (Hlen2 & Hat2 & Hq2).
  destruct (coupleAll_counters _ _ _ _ _ _ H1) as (Hu1 & Ha1 & Hf1).
  destruct (coupleAll_counters _ _ _ _ _ _ H2) as (Hu2 & Ha2 & Hf2).
  assert (map (classify N0 N1) l ≡ₚ map (classify N0 N1) l') as Hvs
    by (by apply Permutation_map).
  exists st1, st2. split_and!; [done|done| | | | |done|done|].
  - apply list_eq. intros i. rewrite Hat1, Hat2.
    destruct (meshes st !! i) as [m|] eqn:Hm; [|done]. simpl. f_equal.
    assert (0 <= Z.of_nat i < Z.max N0 N1) as Hi
      by (apply lookup_lt_Some in Hm; lia).
    pose proof (perfect_row _ _ _ Hp Hi) as Hrow.
    pose proof (perfect_row _ _ _ Hp' Hi) as Hrow'.
    destruct (tally_one_elem _ _ Hrow) as (c & Hin & Hc1%Z.eqb_eq).
    rewrite (fold_slotEffect_unique _ _ _ _ l c) by done.
    rewrite (fold_slotEffect_unique _ _ _ _ l' c); [done|done| |done].
    by rewrite <- Hperm.
  - rewrite Hu1, Hu2. by rewrite (tally_Permutation _ _ _ Hvs).
  - rewrite Ha1, Ha2. by rewrite (tally_Permutation _ _ _ Hvs).
  - rewrite Hf1, Hf2. by rewrite (tally_Permutation _ _ _ Hvs).
  - rewrite Hq1, Hq2. apply Permutation_app_head.
    unfold pendingOf. by rewrite Hperm.
Qed.

(** ** The sign of the costs *)

Lemma binary_round_aux_not_below (prec emax mx ex : Z) (lx : location) :
  belowZero (binary_round_aux prec emax false mx ex lx) = false.
Proof.
  unfold binary_round_aux.
  destruct (shr_fexp prec emax mx ex lx) as [mrs' e'].
  destruct (shr_fexp prec emax _ e' loc_Exact) as [mrs'' e''].
  destruct (shr_m mrs''); [done| |done].
  by destruct (e'' <=? emax - prec).
Qed.

(** The cast to [float] keeps a value that is not below zero so. *)
Lemma float_of_double_not_below (d : spec_float) :
  belowZero d = false -> belowZero (float_of_double d) = false.
Proof.
  destruct d as [s|s| |s m e]; simpl; try done.
  destruct s; [done|]. intros _. unfold binary_round.
  destruct (shl_align m e _) as [mz ez]. apply binary_round_aux_not_below.
Qed.

(** X7.  When no distance between a tracked and a new centroid is below
    zero, no cell of the cost matrix is: the cast keeps the sign and the
    padding is above zero, so the solver is handed a matrix without
    negative costs. *)
Theorem costMatrix_not_below_zero (curr new : list Mesh) (r c : Z) (v : spec_float) :
  distancesNotBelowZero curr new = true ->
  Mat_at (costMatrix curr new) r c = Some v ->
  belowZero v = false.
Proof.
  intros Hd. rewrite costMatrix_at. simpl. case_decide; [|done].
  intros [= <-].
  destruct (vec_at curr r) as [old|] eqn:Hold; [|done].
  destruct (vec_at new c) as [fresh|] eqn:Hfresh; [|done].
  apply vec_at_Some in Hold as [_ Hold%list_elem_of_lookup_2].
  apply vec_at_Some in Hfresh as [_ Hfresh%list_elem_of_lookup_2].
  unfold distancesNotBelowZero in Hd. rewrite forallb_forall in Hd.
  specialize (Hd old). rewrite <- list_elem_of_In in Hd. specialize (Hd Hold).
  rewrite forallb_forall in Hd.
  specialize (Hd fresh). rewrite <- list_elem_of_In in Hd. specialize (Hd Hfresh).
  apply float_of_double_not_below. by apply negb_true_iff.
Qed.

(** ** Runs of the tracker *)

Lemma alignMeshes_silent (reg new : list Mesh) (d : spec_float) :
  snd <$> alignMeshes {| debug := false; currMeshes := reg |} new d
  = (fun _ => EmptyString)
      <$> alignMeshes {| debug := false; currMeshes := reg |} new d.
Proof.
  unfold alignMeshes. simpl.
  destruct (length reg =? 0)%nat; [done|].
  destruct (coupleAll _ _ _ _ _) as [st|]; simpl; [|done].
  by destruct (addPending _ _ _).
Qed.

Lemma trackMotion_silent (reg : list Mesh) (im : Frame) :
  snd <$> trackMotion {| debug := false; currMeshes := reg |} im
  = (fun _ => EmptyString)
      <$> trackMotion {| debug := false; currMeshes := reg |} im.
Proof.
  unfold trackMotion.
  pose proof (alignMeshes_silent reg (detected im)
                (F64.mul (F64.of_Z (frameRows im)) c0_833)) as H.
  unfold detected in H.
  destruct (alignMeshes _ _ _) as [[t o]|]; simpl in *; [|done].
  by injection H as ->.
Qed.

(** X8.  A tracker whose debug flag is off writes nothing, whatever the
    frames it is run over, and its flag stays off. *)
Theorem run_silent (reg : list Mesh) (frames : list Frame) :
  (fun p => (debug p.1, p.2)) <$> run {| debug := false; currMeshes := reg |} frames
  = (fun _ => (false, EmptyString))
      <$> run {| debug := false; currMeshes := reg |} frames.
Proof.
  revert reg. induction frames as [|im frames IH]; intros reg; simpl; [done|].
  pose proof (trackMotion_silent reg im) as Hs.
  destruct (trackMotion {| debug := false; currMeshes := reg |} im)
    as [[[b reg'] o]|] eqn:Hstep; simpl in *; [|done].
  injection Hs as ->.
  apply trackMotion_keeps_flag in Hstep. simpl in Hstep. subst b.
  specialize (IH reg').
  destruct (run {| debug := false; currMeshes := reg' |} frames) as [[t o']|];
    simpl in *; [|done].
  by injection IH as -> ->.
Qed.

Lemma trackMotion_registry (this : Tracker) (im : Frame) :
  fst <$> trackMotion this im
  = fst <$> alignMeshes this (detected im) (F64.mul (F64.of_Z (frameRows im)) c0_833).
Proof.
  unfold trackMotion, detected.
  by destruct (alignMeshes _ _ _) as [[t o]|].
Qed.

(** X9.  Over a run in which the solver returns a perfect matching each
    time it is called, every frame is processed and the registry ends
    with as many entries as the largest number of meshes it has seen:
    those it started with or those detected in a frame. *)
Theorem run_registry_size (frames : list Frame) :
  forall this : Tracker,
  perfectAlong this frames = true ->
  exists this' out,
    run this frames = Some (this', out) /\
    debug this' = debug this /\
    length (currMeshes this') = peak (length (currMeshes this)) frames.
Proof.
  induction frames as [|im frames IH]; intros this Hp; simpl in *.
  - by eexists _, _.
  - apply andb_prop in Hp as [Hsolver Hrest].
    destruct (alignMeshes_size_perfect this (detected im)
                (F64.mul (F64.of_Z (frameRows im)) c0_833))
      as (this1 & out1 & Hrun & Hflag & Hsize).
    { intros Hne. rewrite nonempty_length in Hsolver by done. exact Hsolver. }
    pose proof (trackMotion_registry this im) as Hreg. rewrite Hrun in Hreg.
    destruct (trackMotion this im) as [[t o]|]; simpl in Hreg; [|done].
    injection Hreg as ->.
    destruct (IH this1 Hrest) as (this' & out & Hrun' & Hflag' & Hsize').
    simpl. rewrite Hrun'. simpl. eexists _, _. split; [done|].
    split; [congruence|]. by rewrite Hsize', Hsize.
Qed.

Lemma alignMeshes_grows (this this' : Tracker) (new : list Mesh)
    (maxDist : spec_float) (out : string) :
  alignMeshes this new maxDist = Some (this', out) ->
  (length (currMeshes this) <= length (currMeshes this'))%nat.
Proof.
  intros Hrun.
  pose proof (alignMeshes_Some_nonnegative _ _ _ _ _ Hrun) as Hnn.
  destruct (alignMeshes_spec this new maxDist Hnn) as (out' & added & Hrun' & _).
  rewrite Hrun in Hrun'. injection Hrun' as -> _. simpl.
  rewrite length_app, length_imap. lia.
Qed.

(** X10.  No run shrinks the registry, whatever the solver returns: a
    run that comes to its end leaves at least as many entries as it
    found, so that the bootstrap case is never entered again once the
    registry holds a mesh. *)
Theorem run_never_shrinks (frames : list Frame) :
  forall (this this' : Tracker) (out : string),
  run this frames = Some (this', out) ->
  (length (currMeshes this) <= length (currMeshes this'))%nat /\
  (currMeshes this <> [] -> currMeshes this' <> []).
Proof.
  assert (forall (this this' : Tracker) (out : string),
            run this frames = Some (this', out) ->
            (length (currMeshes this) <= length (currMeshes this'))%nat) as Hlen.
  { induction frames as [|im frames IH]; intros this this' out; simpl.
    - by intros [= <- _].
    - pose proof (trackMotion_registry this im) as Hreg.
      destruct (trackMotion this im) as [[this1 o1]|]; simpl; [|done].
      destruct (alignMeshes this _ _) as [[t o]|] eqn:Hrun; simpl in Hreg; [|done].
      injection Hreg as ->.
      apply alignMeshes_grows in Hrun.
      destruct (run t frames) as [[this2 o2]|] eqn:Hrest; simpl; [|done].
      intros [= <- _]. apply IH in Hrest. lia. }
  intros this this' out Hrun. specialize (Hlen _ _ _ Hrun). split; [done|].
  intros Hne Hempty. rewrite Hempty in Hlen.
  destruct (currMeshes this); [done|]. simpl in Hlen. lia.
Qed.

(** X11.  A tracker as constructed holds no mesh, so its first frame is
    the bootstrap case: whatever the solver, the registry becomes the
    meshes detected in the frame, and with the debug flag on the report
    is the number of vertices, the number of meshes and the line of the
    sizes, with no line of the matrix or of the counts. *)
Theorem first_frame (flag : bool) (im : Frame) :
  trackMotion (MotionTracker_new flag) im
  = Some ({| debug := flag; currMeshes := detected im |},
          when flag
            ("... " ++ show (Z.of_nat (length (cornersS im ++ cornersV im)))
                    ++ " vertices captured" ++ endl ++
             "... " ++ show (Z.of_nat (length (detected im)))
                    ++ " meshes splitted" ++ endl ++
             "...Aligning mesh: " ++ show 0 ++ " --> "
                    ++ show (Z.of_nat (length (detected im))) ++ endl)%string).
Proof.
  unfold trackMotion. fold (detected im).
  rewrite alignMeshes_bootstrap by done.
  destruct flag.
  - change (Some ({| debug := true; currMeshes := detected im |},
              ((("... " ++ show (Z.of_nat (length (cornersS im ++ cornersV im)))
                   ++ " vertices captured" ++ endl)
                ++ ("... " ++ show (Z.of_nat (length (detected im)))
                   ++ " meshes splitted" ++ endl)
                ++ logAligning 0 (Z.of_nat (length (detected im))))%string))
            = Some ({| debug := true; currMeshes := detected im |},
              ("... " ++ show (Z.of_nat (length (cornersS im ++ cornersV im)))
                    ++ " vertices captured" ++ endl ++
               "... " ++ show (Z.of_nat (length (detected im)))
                    ++ " meshes splitted" ++ endl ++
               "...Aligning mesh: " ++ show 0 ++ " --> "
                    ++ show (Z.of_nat (length (detected im))) ++ endl)%string)).
    unfold logAligning. rewrite !append_assoc. reflexivity.
  - reflexivity.
Qed.
End Tracker.

Arguments costMatrix {Geometry}.
Arguments Coupling Geometry : clear implicits.
Arguments mkCoupling {Geometry}.
Arguments meshes {Geometry}.
Arguments nFreshNew {Geometry}.
Arguments nAbsentOld {Geometry}.
Arguments nUpdated {Geometry}.
Arguments pendingForAdd {Geometry}.
Arguments couple {Geometry}.
Arguments coupleAll {Geometry}.
Arguments startCoupling {Geometry}.
Arguments addPending {Geometry}.
Arguments logCounts {Geometry}.
Arguments alignMeshes {Geometry}.
Arguments alignEmpty {Geometry}.
Arguments trackMotion {Geometry} _ _ _ _ {Frame}.
Arguments run {Geometry} _ _ _ _ {Frame}.
Arguments couples {Geometry}.
Arguments verdicts {Geometry}.
Arguments appended {Geometry}.
Arguments slotEffect {Geometry}.
Arguments slotAfter {Geometry}.
Arguments registryAfter {Geometry}.
Arguments absentFor {Geometry}.
Arguments distancesNotBelowZero {Geometry}.
Arguments detected {Geometry Frame}.
Arguments perfectAlong {Geometry} _ _ _ _ {Frame}.
Arguments peak {Geometry Frame}.

(** ** The engine at work on the sample tracker *)

Module Runs.

Import Sample.

(** Two tracked meshes, one detection: [meshA] is updated with
    [meshB], [meshC] becomes absent. *)
Lemma alignMeshes_classifies_once_witness :
  perfect_matching 2 (solveFirst (costMatrix centroid euclid [meshA; meshC] [meshB]))
  = true /\
  exists this' out,
    alignMeshes centroid update euclid solveFirst
      (mkTracker true [meshA; meshC]) [meshB] F32.zero
    = Some (this', out) /\
    currMeshes this' !! 0%nat = Some (update meshA meshB) /\
    currMeshes this' !! 1%nat
    = Some {| geometry := geometry meshC; lengthOfAbsence := 1 |}.
Proof.
  split; [vm_compute; reflexivity|].
  destruct (alignMeshes_classifies_once Points centroid update euclid solveFirst
              (mkTracker true [meshA; meshC]) [meshB] F32.zero)
    as (this' & out & Hrun & Hold & _).
  { intros _. vm_compute. reflexivity. }
  exists this', out. split; [exact Hrun|]. split.
  - destruct (Hold 0%nat meshA eq_refl) as (_ & Hupd & _).
    destruct (Hupd 0) as (fresh & Hfresh & Hslot).
    + vm_compute. left.
    + injection Hfresh as <-. exact Hslot.
  - destruct (Hold 1%nat meshC eq_refl) as (_ & _ & Habs).
    apply Habs. vm_compute. right. left.
Defined.

(** The matrix of two tracked meshes and one detection: the distance
    of [meshC] from [meshB] is below 2^127 and stored below the
    sentinel. *)
Lemma costMatrix_cells_witness :
  let m := costMatrix centroid euclid [meshA; meshC] [meshB] in
  finiteBelow 127 (euclid (centroid meshC) (centroid meshB)) = true /\
  square 2 m /\
  Mat_at m 0 0 = Some F32.zero /\
  Mat_at m 1 0 = Some (float_of_double (euclid (centroid meshC) (centroid meshB))) /\
  SFltb (float_of_double (euclid (centroid meshC) (centroid meshB))) F32.max = true /\
  Mat_at m 0 1 = Some F32.max /\
  Mat_at m 1 1 = Some F32.max.
Proof.
  intros m.
  split; [vm_compute; reflexivity|].
  destruct (costMatrix_cells Points centroid euclid [meshA; meshC] [meshB])
    as (Hsq & Hreal & Hpad).
  split; [exact Hsq|].
  split; [exact (proj1 (Hreal 0%nat 0%nat meshA meshB eq_refl eq_refl))|].
  destruct (Hreal 1%nat 0%nat meshC meshB eq_refl eq_refl) as (Hcell & Hbelow & _).
  split; [exact Hcell|].
  split; [apply Hbelow; vm_compute; reflexivity|].
  split; apply Hpad; simpl; lia.
Defined.

(** The sentinel is reached by the distance of [east] from [origin],
    and exceeded by the distance of [east] from [west], which is
    stored as plus infinity. *)
Lemma sentinel_not_above_every_distance :
  Mat_at (costMatrix centroid euclid [east] [origin]) 0 0
  = Some (float_of_double (euclid (centroid east) (centroid origin))) /\
  SFltb (float_of_double (euclid (centroid east) (centroid origin))) F32.max
  = false /\
  Mat_at (costMatrix centroid euclid [east] [west]) 0 0
  = Some (float_of_double (euclid (centroid east) (centroid west))) /\
  SFltb F32.max (float_of_double (euclid (centroid east) (centroid west)))
  = true.
Proof. vm_compute. repeat split. Qed.

(** The bootstrap case on fresh meshes. *)
Lemma bootstrap_counters_witness :
  currMeshes (mkTracker false ([] : list (MeshObject Points))) = [] /\
  exists this' out,
    alignMeshes centroid update euclid solveFirst
      (mkTracker false []) [meshA; meshC] F32.zero
    = Some (this', out) /\
    length (currMeshes this') = 2%nat /\
    Forall (fun m => lengthOfAbsence m = 0) (currMeshes this').
Proof.
  split; [reflexivity|].
  destruct (bootstrap_counters Points centroid update euclid solveFirst
              (mkTracker false []) [meshA; meshC] F32.zero eq_refl)
    as (this' & out & Hrun & _ & Hlen & _ & Hzero).
  exists this', out. split; [exact Hrun|]. split; [exact Hlen|].
  apply Hzero. repeat constructor.
Defined.

(** The bootstrap case on a mesh that comes with a counter of 3: the
    entry of the registry keeps it. *)
Lemma bootstrap_keeps_counter :
  exists entry,
    registryAfter (alignMeshes centroid update euclid solveFirst
      (mkTracker false []) [late] F32.zero)
    = Some [entry] /\
    lengthOfAbsence entry = 3 /\
    lengthOfAbsence entry <> 0.
Proof. exists late. vm_compute. repeat split. discriminate. Qed.

Lemma bootstrap_appends_unmodified_witness :
  currMeshes (mkTracker true ([] : list (MeshObject Points))) = [] /\
  exists out,
    alignMeshes centroid update euclid solveFirst
      (mkTracker true []) [meshA; late] F32.zero
    = Some (mkTracker true [meshA; late], out).
Proof.
  split; [reflexivity|].
  destruct (bootstrap_appends_unmodified Points centroid update euclid solveFirst
              (mkTracker true []) [meshA; late] F32.zero eq_refl)
    as (out & Hrun & _).
  exists out. exact Hrun.
Defined.

(** Three frames without detections. *)
Lemma alignEmpty_accumulates_witness :
  perfect_matching 2 (solveFirst (costMatrix centroid euclid [meshA; late] []))
  = true /\
  alignEmpty centroid update euclid solveFirst 3
    (mkTracker false [meshA; late]) F32.zero
  = Some (mkTracker false
            [ {| geometry := geometry meshA; lengthOfAbsence := 3 |};
              {| geometry := geometry late; lengthOfAbsence := 6 |} ]).
Proof.
  split; [vm_compute; reflexivity|].
  apply (alignEmpty_accumulates Points centroid update euclid solveFirst 3
           (mkTracker false [meshA; late]) F32.zero).
  - simpl. discriminate.
  - vm_compute. reflexivity.
Defined.

(** One tracked mesh, two detections: [late] is queued and appended. *)
Lemma alignMeshes_keeps_entries_witness :
  nonnegative (couples centroid euclid solveFirst
                 (mkTracker false [meshA]) [meshB; late]) = true /\
  exists this' out,
    alignMeshes centroid update euclid solveFirst
      (mkTracker false [meshA]) [meshB; late] F32.zero
    = Some (this', out) /\
    length (currMeshes this') = 2%nat /\
    currMeshes this' !! 0%nat = Some (update meshA meshB) /\
    currMeshes this' !! 1%nat = Some late.
Proof.
  split; [vm_compute; reflexivity|].
  destruct (alignMeshes_keeps_entries Points centroid update euclid solveFirst
              (mkTracker false [meshA]) [meshB; late] F32.zero)
    as (this' & out & Hrun & Hlen & Hold & Hnew).
  { vm_compute. reflexivity. }
  exists this', out. split; [exact Hrun|]. split; [exact Hlen|]. split.
  - exact (proj1 (Hold 0%nat meshA eq_refl)).
  - destruct (Hnew 0%nat 1 eq_refl) as (fresh & Hfresh & Hslot).
    injection Hfresh as <-. exact Hslot.
Defined.

Lemma pending_appended_after_coupling_witness :
  nonnegative (solveFirst (costMatrix centroid euclid [meshA] [meshB; meshC]))
  = true /\
  exists st added out,
    coupleAll update 1 2 [meshB; meshC]
      (solveFirst (costMatrix centroid euclid [meshA] [meshB; meshC]))
      (startCoupling [meshA]) = Some st /\
    alignMeshes centroid update euclid solveFirst
      (mkTracker false [meshA]) [meshB; meshC] F32.zero
    = Some (mkTracker false (meshes st ++ added), out) /\
    Forall2 (fun n m => vec_at [meshB; meshC] n = Some m) (pendingForAdd st) added.
Proof.
  split; [vm_compute; reflexivity|].
  destruct (pending_appended_after_coupling Points centroid update euclid solveFirst
              (mkTracker false [meshA]) [meshB; meshC] F32.zero)
    as (st & added & out & Hst & _ & Hrun & Hall & _).
  { simpl. discriminate. }
  { vm_compute. reflexivity. }
  exists st, added, out. split; [exact Hst|]. split; [exact Hrun|]. exact Hall.
Defined.

(** A queued mesh that comes with a counter of 3 is appended with it. *)
Lemma appended_keeps_counter :
  classify 1 2 (1, 1) = FreshNew 1 /\
  (1, 1) ∈ solveFirst (costMatrix centroid euclid [meshA] [meshB; late]) /\
  exists entry,
    registryAfter (alignMeshes centroid update euclid solveFirst
      (mkTracker false [meshA]) [meshB; late] F32.zero)
    = Some [update meshA meshB; entry] /\
    entry = late /\
    lengthOfAbsence entry <> 0.
Proof.
  split; [reflexivity|]. split; [vm_compute; right; left|].
  exists late. vm_compute. repeat split. discriminate.
Qed.

(** Zero displacement of two meshes that lie apart. *)
Lemma zero_displacement_matches_itself_witness :
  let m := costMatrix centroid euclid [meshA; meshC] [meshA; meshC] in
  zeroDiagonalOnly 2 m = true /\
  perfect_matching 2 (solveFirst m) = true /\
  Qle_bool (totalCost m (solveFirst m)) (totalCost m (diagonal 2)) = true /\
  exists out,
    alignMeshes centroid update euclid solveFirst
      (mkTracker false [meshA; meshC]) [meshA; meshC] F32.zero
    = Some (mkTracker false [update meshA meshA; update meshC meshC], out).
Proof.
  intros m.
  split; [vm_compute; reflexivity|]. split; [vm_compute; reflexivity|].
  split; [vm_compute; reflexivity|].
  destruct (zero_displacement_matches_itself Points centroid update euclid solveFirst
              (mkTracker false [meshA; meshC]) [meshA; meshC] F32.zero)
    as (out & Hrun & _).
  - simpl. discriminate.
  - reflexivity.
  - vm_compute. reflexivity.
  - vm_compute. reflexivity.
  - vm_compute. reflexivity.
  - exists out. exact Hrun.
Defined.

(** Zero displacement of two meshes that share their centroid: a solver
    within its contract may return the assignment that swaps them, and
    the call then updates each entry with the mesh of the other. *)
Lemma tied_centroids_swap :
  let m := costMatrix centroid euclid [meshA; meshB] [meshA; meshB] in
  map centroid [meshA; meshB] = map centroid [meshA; meshB] /\
  perfect_matching 2 (solveLast m) = true /\
  forallb (fun other => Qle_bool (totalCost m (solveLast m)) (totalCost m other))
          (matchings 2) = true /\
  solveLast m = [(0, 1); (1, 0)] /\
  registryAfter (alignMeshes centroid update euclid solveLast
      (mkTracker false [meshA; meshB])
                   [meshA; meshB] F32.zero)
  = Some [update meshA meshB; update meshB meshA] /\
  update meshA meshB <> update meshA meshA.
Proof. vm_compute. repeat split. discriminate. Qed.

(** A bound of zero on the displacement rejects nothing: [meshA] is
    updated with [meshC], which lies at a distance above zero. *)
Example far_match_still_coupled :
  SFltb F32.zero (stored euclid (centroid meshA) (centroid meshC)) = true /\
  registryAfter
    (alignMeshes centroid update euclid solveFirst
       (mkTracker false [meshA]) [meshC] F32.zero)
  = Some [update meshA meshC].
Proof. vm_compute. by split. Qed.

End Runs.

(** ** More runs of the sample tracker *)

Module Tours.

Import Sample.

(** A solver within its contract keeps the call inside its vectors; one
    that hands back a negative row does not. *)
Lemma alignMeshes_defined_iff_witness :
  is_Some (alignMeshes centroid update euclid solveFirst
             (mkTracker false [meshA; meshC]) [meshB] F32.zero) /\
  alignMeshes centroid update euclid solveNegative
    (mkTracker false [meshA; meshC]) [meshB] F32.zero = None.
Proof.
  split.
  - apply (alignMeshes_defined_iff Points centroid update euclid solveFirst).
    vm_compute. reflexivity.
  - destruct (alignMeshes centroid update euclid solveNegative
                (mkTracker false [meshA; meshC]) [meshB] F32.zero) as [r|] eqn:Hrun;
      [|reflexivity].
    assert (is_Some (alignMeshes centroid update euclid solveNegative
                       (mkTracker false [meshA; meshC]) [meshB] F32.zero)) as Hsome
      by (rewrite Hrun; eexists; reflexivity).
    apply (alignMeshes_defined_iff Points centroid update euclid solveNegative)
      in Hsome.
    vm_compute in Hsome. discriminate Hsome.
Defined.

(** Two tracked meshes and one detection: nothing is queued. *)
Lemma no_absent_with_fresh_witness :
  perfect_matching 2 (solveFirst (costMatrix centroid euclid [meshA; meshC] [meshB]))
  = true /\
  Forall (fun v => isFresh v = false)
    (verdicts centroid euclid solveFirst (mkTracker false [meshA; meshC]) [meshB]) /\
  appended centroid euclid solveFirst (mkTracker false [meshA; meshC]) [meshB] = [].
Proof.
  split; [vm_compute; reflexivity|].
  destruct (no_absent_with_fresh Points centroid euclid solveFirst
              (mkTracker false [meshA; meshC]) [meshB]) as (_ & _ & Hfew).
  { intros _. vm_compute. reflexivity. }
  apply Hfew. simpl. lia.
Defined.

(** One tracked mesh and three detections: the registry grows to 3. *)
Lemma alignMeshes_leaves_larger_size_witness :
  perfect_matching 3
    (solveFirst (costMatrix centroid euclid [meshA] [meshB; meshC; late])) = true /\
  exists this' out,
    alignMeshes centroid update euclid solveFirst
      (mkTracker false [meshA]) [meshB; meshC; late] F32.zero = Some (this', out) /\
    length (currMeshes this') = 3%nat.
Proof.
  split; [vm_compute; reflexivity|].
  destruct (alignMeshes_leaves_larger_size Points centroid update euclid solveFirst
              (mkTracker false [meshA]) [meshB; meshC; late] F32.zero)
    as (this' & out & Hrun & Hsize & _).
  { intros _. vm_compute. reflexivity. }
  exists this', out. split; [exact Hrun|exact Hsize].
Defined.

(** The report of a call with two tracked meshes and one detection. *)
Lemma debug_report_witness :
  perfect_matching 2 (solveFirst (costMatrix centroid euclid [meshA; meshC] [meshB]))
  = true /\
  snd <$> alignMeshes centroid update euclid solveFirst
            (mkTracker true [meshA; meshC]) [meshB] F32.zero
  = Some ("...Aligning mesh: 2 --> 1" ++ endl ++
          "[M] 2 x 2" ++ endl ++
          "... 1 mesh(es) updated" ++ endl ++
          "... 1 mesh(es) absent" ++ endl ++
          "... 0 new mesh(es)" ++ endl)%string.
Proof.
  split; [vm_compute; reflexivity|].
  apply (debug_report Points centroid update euclid solveFirst
           [meshA; meshC] [meshB] F32.zero).
  - simpl. discriminate.
  - vm_compute. reflexivity.
Defined.

Lemma counts_account_for_couples_witness :
  nonnegative (solveFirst (costMatrix centroid euclid [meshA] [meshB; meshC])) = true /\
  exists st this' out,
    coupleAll update 1 2 [meshB; meshC]
      (solveFirst (costMatrix centroid euclid [meshA] [meshB; meshC]))
      (startCoupling [meshA]) = Some st /\
    alignMeshes centroid update euclid solveFirst
      (mkTracker false [meshA]) [meshB; meshC] F32.zero = Some (this', out) /\
    Z.of_nat (length (currMeshes this')) = 1 + nFreshNew st.
Proof.
  split; [vm_compute; reflexivity|].
  destruct (counts_account_for_couples Points centroid update euclid solveFirst
              (mkTracker false [meshA]) [meshB; meshC] F32.zero)
    as (st & this' & out & Hst & Hrun & _ & _ & _ & _ & Hsize).
  { simpl. discriminate. }
  { vm_compute. reflexivity. }
  exists st, this', out. split; [exact Hst|]. split; [exact Hrun|exact Hsize].
Defined.

(** The two orders of the diagonal pairing of two meshes. *)
Lemma coupleAll_any_order_witness :
  [(0, 0); (1, 1)] ≡ₚ [(1, 1); (0, 0)] /\
  perfect_matching 2 [(0, 0); (1, 1)] = true /\
  exists st1 st2,
    coupleAll update 2 2 [meshB; late] [(0, 0); (1, 1)] (startCoupling [meshA; meshC])
    = Some st1 /\
    coupleAll update 2 2 [meshB; late] [(1, 1); (0, 0)] (startCoupling [meshA; meshC])
    = Some st2 /\
    meshes st1 = meshes st2.
Proof.
  split; [apply perm_swap|]. split; [reflexivity|].
  destruct (coupleAll_any_order Points update [meshB; late]
              [(0, 0); (1, 1)] [(1, 1); (0, 0)] (startCoupling [meshA; meshC]))
    as (st1 & st2 & H1 & H2 & Hm & _).
  - apply perm_swap.
  - reflexivity.
  - exists st1, st2. split; [exact H1|]. split; [exact H2|exact Hm].
Defined.

(** The Euclidean distances of the sample meshes are not below zero. *)
Lemma costMatrix_not_below_zero_witness :
  distancesNotBelowZero centroid euclid [meshA; meshC] [meshB] = true /\
  belowZero (float_of_double (euclid (centroid meshC) (centroid meshB))) = false.
Proof.
  split; [vm_compute; reflexivity|].
  apply (costMatrix_not_below_zero Points centroid euclid [meshA; meshC] [meshB] 1 0).
  - vm_compute. reflexivity.
  - vm_compute. reflexivity.
Defined.

(** Three frames from a tracker as constructed: two meshes, none, three. *)
Lemma run_registry_size_witness :
  perfectAlong centroid update euclid solveFirst
    height structural salient MeshObject_of split
    (MotionTracker_new true) [frame1; frame2; frame3] = true /\
  exists this' out,
    run centroid update euclid solveFirst
      height structural salient MeshObject_of split
      (MotionTracker_new true) [frame1; frame2; frame3] = Some (this', out) /\
    length (currMeshes this') = 3%nat.
Proof.
  split; [vm_compute; reflexivity|].
  destruct (run_registry_size Points centroid update euclid solveFirst
              Frame height structural salient MeshObject_of split
              [frame1; frame2; frame3] (MotionTracker_new true))
    as (this' & out & Hrun & _ & Hsize).
  { vm_compute. reflexivity. }
  exists this', out. split; [exact Hrun|exact Hsize].
Defined.

Lemma run_never_shrinks_witness :
  exists this' out,
    run centroid update euclid solveFirst
      height structural salient MeshObject_of split
      (mkTracker false [meshA; meshC]) [frame2; frame1] = Some (this', out) /\
    (2 <= length (currMeshes this'))%nat.
Proof.
  destruct (run centroid update euclid solveFirst
              height structural salient MeshObject_of split
              (mkTracker false [meshA; meshC]) [frame2; frame1])
    as [[this' out]|] eqn:Hrun.
  - exists this', out. split; [reflexivity|].
    exact (proj1 (run_never_shrinks Points centroid update euclid solveFirst
                    Frame height structural salient MeshObject_of split
                    [frame2; frame1] _ _ _ Hrun)).
  - vm_compute in Hrun. discriminate Hrun.
Defined.

End Tours.
